(** * Toast notifications: [ToastProvider] (src/context/ToastContext.tsx)
      and the [Toast] component (src/components/feedback/Toast.tsx).

    The provider keeps an array of toast records in React state and offers
    [showToast] (the specification's enqueue) and [hideToast] (its
    dismiss); each record is rendered as one [Toast] component, which owns
    two timers of its own: the auto-close timer and the 300 ms delay of
    [handleClose].

    The embedding:
    - the three updaters given to [setToasts] are list functions;
    - the host's timer queue is a list of pending callbacks with due times
      and handles, next to a clock; [advance] lets time pass and runs what
      is due, earliest first;
    - a mounted [Toast] is its record together with the two [useState]
      cells and the handle its effect cleanup holds; effects are functions
      that thread the host through;
    - [Math.random] is an input: [showToast] takes the text of
      [Math.random().toString(36)].

    Assumptions: times and durations are whole milliseconds (no NaN, no
    fractions); the host reads a timer delay as a signed 32-bit integer;
    a call of [showToast] or [hideToast] only queues its state update,
    which React applies in the render that follows the handler making the
    call ([showToast_call], [hideToast_call] and [render] keep the two
    apart); that render, with its effects, takes no time and comes before
    any later call or timer; React keeps one instance per record; the
    development-only double invocation of effects under [StrictMode]
    (main.tsx) is left out. *)

From Stdlib Require Import ZArith List String Bool Lia Arith.
Import ListNotations.

Local Open Scope string_scope.
Local Open Scope list_scope.
Local Open Scope Z_scope.

(** ** Data model *)

(** [type ToastVariant = 'info' | 'success' | 'warning' | 'error'] *)
Inductive ToastVariant : Type := info | success | warning | error.

(** Durations, delays and clock readings are whole milliseconds. *)
Definition number : Type := Z.

Section Toasts.

(** [React.ReactNode]: the action payload is rendered, never inspected. *)
Context {ReactNode : Type}.

(** [interface ToastOptions]; a field marked [?] is an [option]. *)
Record ToastOptions : Type := {
  variant : option ToastVariant;
  title : option string;
  description : string;
  duration : option number;
  action : option ReactNode
}.

(** [interface ToastData extends ToastOptions { id; visible }] *)
Record ToastData : Type := {
  options : ToastOptions;
  id : string;
  visible : bool
}.

(** JavaScript's [x || d] on an optional value: [undefined] and falsy values
    give [d]. *)
Definition or_default {A : Type} (falsy : A -> bool) (x : option A) (d : A) : A :=
  match x with
  | Some v => if falsy v then d else v
  | None => d
  end.

(** The four variant literals are non-empty strings, hence truthy. *)
Definition variant_falsy (v : ToastVariant) : bool := false.

(** A number is falsy exactly when it is [0] (there is no NaN among whole
    milliseconds). *)
Definition number_falsy (n : number) : bool := n =? 0.

(** [Math.random().toString(36).substring(2, 9)]: the argument is the text
    of [Math.random().toString(36)]; [substring(2, 9)] keeps at most seven
    characters from index 2 on. *)
Definition random_id (r : string) : string := substring 2 7 r.

(** The object literal of [showToast] (ToastContext.tsx, 34-42). *)
Definition new_toast (i : string) (o : ToastOptions) : ToastData :=
  {| options :=
       {| variant := Some (or_default variant_falsy (variant o) info);
          title := title o;
          description := description o;
          duration := Some (or_default number_falsy (duration o) 5000);
          action := action o |};
     id := i;
     visible := true |}.

(** ** The three state updaters passed to [setToasts] *)

(** [prev => [...prev, toast]] *)
Definition append_toast (t : ToastData) (prev : list ToastData) : list ToastData :=
  prev ++ [t].

(** [{ ...toast, visible: false }] *)
Definition hidden (toast : ToastData) : ToastData :=
  {| options := options toast; id := id toast; visible := false |}.

(** [prev => prev.map(toast => toast.id === id ? {...toast, visible: false} : toast)] *)
Definition mark_hidden (i : string) (prev : list ToastData) : list ToastData :=
  map (fun toast => if String.eqb (id toast) i then hidden toast else toast) prev.

(** [prev => prev.filter(toast => toast.id !== id)] *)
Definition drop_toast (i : string) (prev : list ToastData) : list ToastData :=
  filter (fun toast => negb (String.eqb (id toast) i)) prev.

(** ** The host: clock and pending [setTimeout] callbacks *)

(** The three timer callbacks of the two files.  A [Toast] instance is named
    by a number; the string is the [toast.id] captured by its [onClose]. *)
Inductive Callback : Type :=
| Cleanup (i : string)                 (* ToastContext.tsx 56-58 *)
| AutoClose (n : nat) (i : string)     (* Toast.tsx 88-90: handleClose() *)
| CloseDone (n : nat) (i : string).    (* Toast.tsx 77-82 *)

Record Timer : Type := {
  due : Z;
  handle : nat;
  cb : Callback
}.

Record Host : Type := {
  now : Z;
  timers : list Timer;
  next_handle : nat
}.

(** The delay of [setTimeout] is a 32-bit signed integer to the host (a
    [long] of its interface): the number given is reduced modulo 2^32 into
    the range from -2147483648 to 2147483647, so 2147483648 is read as
    -2147483648 and 4294967296 + 5000 as 5000. *)
Definition int32 (z : Z) : Z := (z + 2147483648) mod 4294967296 - 2147483648.

(** The time the host waits: the 32-bit reading of the delay, a negative one
    counting as 0. *)
Definition timer_delay (delay : number) : Z := Z.max 0 (int32 delay).

(** [setTimeout(cb, delay)]; the handle is returned. *)
Definition setTimeout (c : Callback) (delay : number) (h : Host) : nat * Host :=
  (next_handle h,
   {| now := now h;
      timers := timers h ++ [{| due := now h + timer_delay delay;
                                handle := next_handle h;
                                cb := c |}];
      next_handle := S (next_handle h) |}).

Definition other_handle (k : nat) (tm : Timer) : bool := negb (Nat.eqb (handle tm) k).

(** [clearTimeout(handle)] *)
Definition clearTimeout (k : nat) (h : Host) : Host :=
  {| now := now h;
     timers := filter (other_handle k) (timers h);
     next_handle := next_handle h |}.

(** ** One mounted [Toast] *)

(** A provider record together with the [Toast] instance React keeps for it
    (one child per record, keyed by [toast.id]): the two [useState] cells and
    the timer handle held by the cleanup of the auto-close effect. *)
Record Mounted : Type := {
  data : ToastData;
  inst : nat;
  isVisible : bool;
  isLeaving : bool;
  autoTimer : option nat
}.

(** The [duration] prop with its default ([duration = 5000], Toast.tsx 64). *)
Definition toast_duration (m : Mounted) : number :=
  match duration (options (data m)) with
  | Some d => d
  | None => 5000
  end.

(** The cleanup returned by the auto-close effect (Toast.tsx 92-94). *)
Definition cleanup (m : Mounted) (h : Host) : Host :=
  match autoTimer m with
  | Some k => clearTimeout k h
  | None => h
  end.

(** The body of the auto-close effect (Toast.tsx 86-96). *)
Definition autoClose_effect (m : Mounted) (h : Host) : Mounted * Host :=
  if negb (number_falsy (toast_duration m)) && isVisible m && negb (isLeaving m)
  then let (k, h') := setTimeout (AutoClose (inst m) (id (data m))) (toast_duration m) h in
       ({| data := data m; inst := inst m; isVisible := isVisible m;
           isLeaving := isLeaving m; autoTimer := Some k |}, h')
  else ({| data := data m; inst := inst m; isVisible := isVisible m;
           isLeaving := isLeaving m; autoTimer := None |}, h).

(** [setIsVisible(v); setIsLeaving(l)]: when either cell changes the
    component renders again and, its dependencies having changed, the
    auto-close effect is cleaned up and run anew. *)
Definition set_state (v l : bool) (m : Mounted) (h : Host) : Mounted * Host :=
  if Bool.eqb v (isVisible m) && Bool.eqb l (isLeaving m) then (m, h)
  else autoClose_effect
         {| data := data m; inst := inst m; isVisible := v; isLeaving := l;
            autoTimer := autoTimer m |}
         (cleanup m h).

(** The second effect (Toast.tsx 99-104):
    [setIsVisible(visible); if (visible) setIsLeaving(false)]. *)
Definition visible_effect (m : Mounted) (h : Host) : Mounted * Host :=
  set_state (visible (data m)) (if visible (data m) then false else isLeaving m) m h.

(** First render of a [Toast] for record [d]: initial cells, then both
    effects. *)
Definition mount (d : ToastData) (n : nat) (h : Host) : Mounted * Host :=
  let (m, h1) :=
    autoClose_effect
      {| data := d; inst := n; isVisible := visible d; isLeaving := false;
         autoTimer := None |} h in
  visible_effect m h1.

(** The provider's [map]: a matching record is replaced by its hidden copy;
    the second effect runs when the [visible] prop changed. *)
Definition hide_item (i : string) (m : Mounted) (h : Host) : Mounted * Host :=
  if String.eqb (id (data m)) i
  then let m' := {| data := hidden (data m); inst := inst m; isVisible := isVisible m;
                    isLeaving := isLeaving m; autoTimer := autoTimer m |} in
       if visible (data m) then visible_effect m' h else (m', h)
  else (m, h).

(** [setIsLeaving(true)] of instance [n] (no effect on other instances, nor
    when [n] is no longer mounted). *)
Definition leave_item (n : nat) (m : Mounted) (h : Host) : Mounted * Host :=
  if Nat.eqb (inst m) n then set_state (isVisible m) true m h else (m, h).

(** [setIsVisible(false)] of instance [n]. *)
Definition vanish_item (n : nat) (m : Mounted) (h : Host) : Mounted * Host :=
  if Nat.eqb (inst m) n then set_state false (isLeaving m) m h else (m, h).

(** Rendering the children in order, threading the host. *)
Fixpoint for_each (f : Mounted -> Host -> Mounted * Host) (l : list Mounted) (h : Host)
  : list Mounted * Host :=
  match l with
  | [] => ([], h)
  | m :: l' =>
      let (m', h1) := f m h in
      let (l'', h2) := for_each f l' h1 in
      (m' :: l'', h2)
  end.

(** ** The provider with its children *)

Record World : Type := {
  host : Host;
  items : list Mounted;
  next_inst : nat
}.

(** The provider's [toasts] state. *)
Definition toasts (w : World) : list ToastData := map data (items w).

Definition ids (w : World) : list string := map id (toasts w).

Definition clock (w : World) : Z := now (host w).

Definition pending (w : World) : list Timer := timers (host w).

(** [useState<ToastData[]>([])] at time [t]. *)
Definition init (t : Z) : World :=
  {| host := {| now := t; timers := []; next_handle := 0%nat |};
     items := [];
     next_inst := 0%nat |}.

(** *** A call and the render that follows it

    [setToasts(updater)] does not change the state during the call: React
    queues the updater and applies it when it renders the provider anew,
    after the event handler or timer callback that made the call has
    returned.  A [setTimeout] made by the call is in the host's queue at
    once. *)

(** The updaters queued by the two operations of the context. *)
Inductive Update : Type :=
| Append (toast : ToastData)     (* prev => [...prev, toast] *)
| MarkHidden (i : string).       (* prev => prev.map(...) *)

Definition updater (u : Update) : list ToastData -> list ToastData :=
  match u with
  | Append toast => append_toast toast
  | MarkHidden i => mark_hidden i
  end.

(** What a call leaves behind when it returns: the world as the call made
    it, and the update waiting for the next render. *)
Record Called : Type := {
  returned : World;
  queued : Update
}.

(** The body of [showToast(options)] (ToastContext.tsx 29-46), given the
    text [r] of [Math.random().toString(36)]: the record is built and
    queued, the identifier returned. *)
Definition showToast_call (r : string) (o : ToastOptions) (w : World) : string * Called :=
  let i := random_id r in
  (i, {| returned := w; queued := Append (new_toast i o) |}).

(** The body of [hideToast(id)] (ToastContext.tsx 48-59): the [map] is
    queued, the removal timer set. *)
Definition hideToast_call (i : string) (w : World) : Called :=
  let (_, h1) := setTimeout (Cleanup i) 500 (host w) in
  {| returned := {| host := h1; items := items w; next_inst := next_inst w |};
     queued := MarkHidden i |}.

(** The render that follows: the queued updater is applied; a record that
    is new has its [Toast] mounted, the others are rendered with their new
    props. *)
Definition render (c : Called) : World :=
  let w := returned c in
  match queued c with
  | Append toast =>
      let (m, h) := mount toast (next_inst w) (host w) in
      {| host := h; items := items w ++ [m]; next_inst := S (next_inst w) |}
  | MarkHidden i =>
      let (l, h) := for_each (hide_item i) (items w) (host w) in
      {| host := h; items := l; next_inst := next_inst w |}
  end.

(** [showToast(options)] together with the render it causes. *)
Definition showToast (r : string) (o : ToastOptions) (w : World) : string * World :=
  let (i, c) := showToast_call r o w in (i, render c).

(** [hideToast(id)] together with the render it causes. *)
Definition hideToast (i : string) (w : World) : World :=
  render (hideToast_call i w).

(** [handleClose()] of instance [n] whose [onClose] closes over [i]
    (Toast.tsx 75-83), also the close button's [onClick], together with the
    render it causes: the 300 ms timer is set during the call, the queued
    [setIsLeaving(true)] is applied by the render. *)
Definition handleClose (n : nat) (i : string) (w : World) : World :=
  let (_, h1) := setTimeout (CloseDone n i) 300 (host w) in
  let (l, h2) := for_each (leave_item n) (items w) h1 in
  {| host := h2; items := l; next_inst := next_inst w |}.

(** The 300 ms callback of [handleClose]: [setIsVisible(false); onClose()],
    where the provider passes [onClose = () => hideToast(toast.id)], together
    with the one render that applies both updates. *)
Definition closeDone (n : nat) (i : string) (w : World) : World :=
  let (l, h) := for_each (vanish_item n) (items w) (host w) in
  hideToast i {| host := h; items := l; next_inst := next_inst w |}.

Definition has_id (i : string) (m : Mounted) : bool := String.eqb (id (data m)) i.

(** The 500 ms callback of [hideToast] with the render it causes: the
    [filter]; children that leave the list unmount, which runs the cleanup
    of their auto-close effect. *)
Definition removeToast (i : string) (w : World) : World :=
  {| host := fold_left (fun h m => cleanup m h) (filter (has_id i) (items w)) (host w);
     items := filter (fun m => negb (has_id i m)) (items w);
     next_inst := next_inst w |}.

Definition run (c : Callback) (w : World) : World :=
  match c with
  | Cleanup i => removeToast i w
  | AutoClose n i => handleClose n i w
  | CloseDone n i => closeDone n i w
  end.

(** A due timer leaves the queue; the clock reads at least its due time. *)
Definition dequeue (tm : Timer) (w : World) : World :=
  {| host := {| now := Z.max (now (host w)) (due tm);
                timers := filter (other_handle (handle tm)) (timers (host w));
                next_handle := next_handle (host w) |};
     items := items w;
     next_inst := next_inst w |}.

(** The host runs a due timer. *)
Definition fire (tm : Timer) (w : World) : World := run (cb tm) (dequeue tm w).

(** The pending timer with the least due time; among equals, the one set
    first. *)
Fixpoint earliest (l : list Timer) : option Timer :=
  match l with
  | [] => None
  | tm :: l' =>
      match earliest l' with
      | Some tm' => if due tm' <? due tm then Some tm' else Some tm
      | None => Some tm
      end
  end.

(** The next timer to run on the way to time [t], if any. *)
Definition next_timer (t : Z) (w : World) : option Timer :=
  match earliest (pending w) with
  | Some tm => if due tm <=? t then Some tm else None
  | None => None
  end.

(** Nothing is due: the clock moves on to [t]. *)
Definition elapse (t : Z) (w : World) : World :=
  {| host := {| now := Z.max (now (host w)) t;
                timers := timers (host w);
                next_handle := next_handle (host w) |};
     items := items w;
     next_inst := next_inst w |}.

Fixpoint advance_fuel (fuel : nat) (t : Z) (w : World) : World :=
  match fuel with
  | O => elapse t w
  | S fuel' =>
      match next_timer t w with
      | Some tm => advance_fuel fuel' t (fire tm w)
      | None => elapse t w
      end
  end.

(** A timer callback sets at most one timer of the next kind:
    auto-close, then close-done, then cleanup. *)
Definition weight (c : Callback) : nat :=
  match c with
  | Cleanup _ => 1%nat
  | CloseDone _ _ => 2%nat
  | AutoClose _ _ => 3%nat
  end.

Definition potential (l : list Timer) : nat :=
  fold_right (fun tm acc => (weight (cb tm) + acc)%nat) 0%nat l.

(** Let time pass until [t] with no call from outside: every timer due by
    then runs, in order. *)
Definition advance (t : Z) (w : World) : World :=
  advance_fuel (potential (pending w)) t w.

(** The visibility state of the record with identifier [i]: [Some true] is
    visible, [Some false] is closing, [None] is absent. *)
Definition state_of (i : string) (l : list ToastData) : option bool :=
  option_map visible (find (fun toast => String.eqb (id toast) i) l).

(** ** Calls from outside and executions *)

Inductive Event : Type :=
| Show (r : string) (o : ToastOptions)   (* showToast(o), Math.random() reads r *)
| Hide (i : string)                      (* hideToast(i) *)
| Close (n : nat) (i : string)           (* a click on the close button *)
| Wait (t : Z).                          (* nothing happens until time t *)

Definition step (e : Event) (w : World) : World :=
  match e with
  | Show r o => snd (showToast r o w)
  | Hide i => hideToast i w
  | Close n i => handleClose n i w
  | Wait t => advance t w
  end.

Definition exec (es : list Event) (w : World) : World :=
  fold_left (fun w e => step e w) es w.

(** Every token drawn by a [Show] differs from the identifiers held when it
    is drawn. *)
Fixpoint unheld (es : list Event) (w : World) : Prop :=
  match es with
  | [] => True
  | e :: es' =>
      match e with
      | Show r _ => ~ In (random_id r) (ids w)
      | _ => True
      end /\ unheld es' (step e w)
  end.

(** The identifier a callback was made for, and the instance it belongs to. *)
Definition key (c : Callback) : string :=
  match c with
  | Cleanup i => i
  | AutoClose _ i => i
  | CloseDone _ i => i
  end.

Definition owner (c : Callback) : option nat :=
  match c with
  | Cleanup _ => None
  | AutoClose n _ => Some n
  | CloseDone n _ => Some n
  end.

(** Identifier [i] is new to the world: no record holds it and no pending
    timer was made for it. *)
Definition fresh (i : string) (w : World) : Prop :=
  ~ In i (ids w) /\ forall tm, In tm (pending w) -> key (cb tm) <> i.

(** Worlds reached from an empty provider by calls, clicks and the passing
    of time, every drawn token being new. *)
Inductive reachable : World -> Prop :=
| reach_init : forall t, reachable (init t)
| reach_show : forall w r o,
    reachable w -> fresh (random_id r) w -> reachable (snd (showToast r o w))
| reach_hide : forall w i, reachable w -> reachable (hideToast i w)
| reach_click : forall w m,
    reachable w -> In m (items w) -> isVisible m = true ->
    reachable (handleClose (inst m) (id (data m)) w)
| reach_wait : forall w t, reachable w -> reachable (advance t w).

(** ** Invariants *)

Record sane (w : World) : Prop := {
  sane_handles : forall tm, In tm (pending w) -> (handle tm < next_handle (host w))%nat;
  sane_nodup : NoDup (map handle (pending w));
  sane_stored : forall m k, In m (items w) -> autoTimer m = Some k ->
      (k < next_handle (host w))%nat /\
      forall tm, In tm (pending w) -> handle tm = k ->
                 cb tm = AutoClose (inst m) (id (data m));
  sane_timely : forall tm, In tm (pending w) -> clock w <= due tm;
  sane_grace : forall tm i, In tm (pending w) -> cb tm = Cleanup i ->
      due tm <= clock w + 500;
  sane_insts : forall m, In m (items w) -> (inst m < next_inst w)%nat;
  sane_owners : forall tm n, In tm (pending w) -> owner (cb tm) = Some n ->
      (n < next_inst w)%nat
}.

(** No removal is pending for a record that is still visible. *)
Definition no_stale (w : World) : Prop :=
  forall d tm, In d (toasts w) -> visible d = true -> In tm (pending w) ->
               cb tm <> Cleanup (id d).

(** A removal is pending for every closing record. *)
Definition closing_scheduled (w : World) : Prop :=
  forall d, In d (toasts w) -> visible d = false ->
            exists tm, In tm (pending w) /\ cb tm = Cleanup (id d).

(** Everything that holds of a reachable world. *)
Record steady (w : World) : Prop := {
  steady_sane : sane w;
  steady_stale : no_stale w;
  steady_closing : closing_scheduled w;
  steady_ids : NoDup (ids w)
}.

(** Whether callback [c] belongs to instance [n] or identifier [i]. *)
Definition concerns (n : nat) (i : string) (c : Callback) : Prop :=
  owner c = Some n \/ key c = i.

(** ** The phases of a record on its way out *)

(** Record [i] is closing; its earliest pending removal is due at [T]. *)
Definition awaiting_removal (i : string) (T : Z) (w : World) : Prop :=
  state_of i (toasts w) = Some false /\
  (exists tm, In tm (pending w) /\ cb tm = Cleanup i /\ due tm = T) /\
  (forall tm, In tm (pending w) -> cb tm = Cleanup i -> T <= due tm).

(** Record [i] is gone, and the clock has reached [T]. *)
Definition removed (i : string) (T : Z) (w : World) : Prop :=
  state_of i (toasts w) = None /\ T <= clock w.

(** What holds of record [i] while timers run on the way from time [t0] to
    time [t]. *)
Definition on_the_way_out (i : string) (T t0 t : Z) (w : World) : Prop :=
  sane w /\ t0 <= clock w /\ clock w <= t /\
  (awaiting_removal i T w \/ removed i T w).

(** The only pending timer about instance [n] or identifier [i] is callback
    [c], due at [T]. *)
Definition sole (n : nat) (i : string) (c : Callback) (T : Z) (w : World) : Prop :=
  exists tm0, In tm0 (pending w) /\ cb tm0 = c /\ due tm0 = T /\
              forall tm, In tm (pending w) -> concerns n i (cb tm) -> tm = tm0.

(** The life of the record shown at instance [n] with identifier [i] whose
    auto-close timer is due at [D], when nobody dismisses it. *)
Inductive phase (n : nat) (i : string) (D : Z) (w : World) : Prop :=
| phase_shown :
    state_of i (toasts w) = Some true ->
    sole n i (AutoClose n i) D w -> phase n i D w
| phase_leaving :
    state_of i (toasts w) = Some true -> D <= clock w ->
    sole n i (CloseDone n i) (D + 300) w -> phase n i D w
| phase_closing :
    state_of i (toasts w) = Some false -> D + 300 <= clock w ->
    sole n i (Cleanup i) (D + 800) w -> phase n i D w
| phase_gone :
    state_of i (toasts w) = None -> D + 800 <= clock w -> phase n i D w.

(** Records selected by [keep] survive, those selected by [hide] are closing. *)
Definition reshape (keep hide : string -> bool) (l : list ToastData) : list ToastData :=
  map (fun d => if hide (id d) then hidden d else d) (filter (fun d => keep (id d)) l).

(** ** Normal forms of the traversals *)

Definition idle : Host := {| now := 0; timers := []; next_handle := 0%nat |}.

(** The handles held by the auto-close cleanups of [l]. *)
Definition stored (l : list Mounted) : list nat :=
  flat_map (fun m => match autoTimer m with Some k => [k] | None => [] end) l.

Definition kept (ks : list nat) (tm : Timer) : bool :=
  negb (existsb (Nat.eqb (handle tm)) ks).

Definition clear_all (ks : list nat) (h : Host) : Host :=
  {| now := now h; timers := filter (kept ks) (timers h); next_handle := next_handle h |}.

(** A [setTimeout] call and a render of the children, as world
    transformers. *)
Definition schedule (c : Callback) (delay : number) (w : World) : World :=
  {| host := snd (setTimeout c delay (host w)); items := items w; next_inst := next_inst w |}.

Definition settle (f : Mounted -> Host -> Mounted * Host) (w : World) : World :=
  let (l, h) := for_each f (items w) (host w) in
  {| host := h; items := l; next_inst := next_inst w |}.

(** A traversal step that sets no timer: it rewrites the record by [g] and
    cleans up the auto-close effect of the instances selected by [c]. *)
Record tame (f : Mounted -> Host -> Mounted * Host) (c : Mounted -> bool)
            (g : ToastData -> ToastData) : Prop := {
  tame_eq : forall m h, f m h = (fst (f m idle), if c m then cleanup m h else h);
  tame_inst : forall m, inst (fst (f m idle)) = inst m;
  tame_data : forall m, data (fst (f m idle)) = g (data m);
  tame_id : forall d, id (g d) = id d;
  tame_timer : forall m, autoTimer (fst (f m idle)) = if c m then None else autoTimer m
}.

Definition hide_data (i : string) (d : ToastData) : ToastData :=
  if String.eqb (id d) i then hidden d else d.

(** The instance mounted by [showToast]; its first render sets the
    auto-close timer. *)
Definition shown (i : string) (o : ToastOptions) (w : World) : Mounted :=
  {| data := new_toast i o; inst := next_inst w; isVisible := true; isLeaving := false;
     autoTimer := Some (next_handle (host w)) |}.

(** The timer set while [tm] runs in [w], if any: [handleClose] sets the
    300 ms timer, [onClose] (that is [hideToast]) the 500 ms one. *)
Definition spawn (tm : Timer) (w : World) : option Timer :=
  match cb tm with
  | Cleanup _ => None
  | AutoClose n i =>
      Some {| due := Z.max (clock w) (due tm) + 300;
              handle := next_handle (host w);
              cb := CloseDone n i |}
  | CloseDone n i =>
      Some {| due := Z.max (clock w) (due tm) + 500;
              handle := next_handle (host w);
              cb := Cleanup i |}
  end.

(** The instances whose auto-close effect is cleaned up by each traversal. *)
Definition hide_hits (i : string) (m : Mounted) : bool :=
  has_id i m && visible (data m) && isVisible m.

Definition leave_hits (n : nat) (m : Mounted) : bool :=
  Nat.eqb (inst m) n && negb (isLeaving m).

Definition vanish_hits (n : nat) (m : Mounted) : bool :=
  Nat.eqb (inst m) n && isVisible m.

(** ** [useToast] and the context (ToastContext.tsx 14-19, 62, 82-88) *)

(** [ToastContextType]: the two operations the provider puts in scope. *)
Record ToastContextType : Type := {
  ctx_showToast : string -> ToastOptions -> World -> string * World;
  ctx_hideToast : string -> World -> World
}.

(** The value of [<ToastContext.Provider value={{ showToast, hideToast }}>]. *)
Definition provider_value : ToastContextType :=
  {| ctx_showToast := showToast; ctx_hideToast := hideToast |}.

(** [useContext(ToastContext)]: the value of the nearest enclosing provider
    (the head of the list of enclosing provider values, innermost first), or
    the default given to [createContext], which is [undefined]. *)
Definition useContext (enclosing : list (option ToastContextType))
  : option ToastContextType :=
  match enclosing with
  | v :: _ => v
  | [] => None
  end.

(** A call either returns or throws [new Error(message)]. *)
Inductive Outcome (A : Type) : Type :=
| Returns (a : A)
| Throws (message : string).

Definition useToast (enclosing : list (option ToastContextType))
  : Outcome ToastContextType :=
  match useContext enclosing with
  | None => Throws _ "useToast must be used within a ToastProvider"
  | Some context => Returns _ context
  end.

(** The component tree of main.tsx below [ToastProvider]: each
    [ToastProvider] on the path to a component adds its value. *)
Definition inside_provider (outer : list (option ToastContextType))
  : list (option ToastContextType) :=
  Some provider_value :: outer.

(** * Proofs *)

(** ** The host's reading of a delay *)

Lemma timer_delay_nonneg (d : number) : 0 <= timer_delay d.
Proof. unfold timer_delay. lia. Qed.

(** A delay from 0 to 2147483647 is waited for as it is. *)
Lemma timer_delay_small (d : number) : 0 <= d <= 2147483647 -> timer_delay d = d.
Proof.
  intros H. unfold timer_delay, int32.
  rewrite Z.mod_small by lia. lia.
Qed.

(** A negative delay, and one from 2147483648 up to 4294967295 (which the
    host reads as negative), are not waited for at all. *)
Lemma timer_delay_negative (d : number) : -2147483648 <= d < 0 -> timer_delay d = 0.
Proof.
  intros H. unfold timer_delay, int32.
  rewrite Z.mod_small by lia. lia.
Qed.

Lemma timer_delay_wrapped (d : number) : 2147483647 < d < 4294967296 -> timer_delay d = 0.
Proof.
  intros H. unfold timer_delay, int32.
  replace (d + 2147483648) with (d - 2147483648 + 1 * 4294967296) by lia.
  rewrite Z_mod_plus_full, Z.mod_small by lia. lia.
Qed.

Lemma timer_delay_300 : timer_delay 300 = 300.
Proof. reflexivity. Qed.

Lemma timer_delay_500 : timer_delay 500 = 500.
Proof. reflexivity. Qed.

(** ** The updaters as list functions *)

Lemma mark_hidden_ids (i : string) (l : list ToastData) :
  map id (mark_hidden i l) = map id l.
Proof.
  unfold mark_hidden. rewrite map_map. apply map_ext.
  intros x. destruct (String.eqb (id x) i); reflexivity.
Qed.

Lemma mark_hidden_absent (i : string) (l : list ToastData) :
  ~ In i (map id l) -> mark_hidden i l = l.
Proof.
  induction l as [|x l IH]; simpl; intros H; [reflexivity|].
  destruct (String.eqb_spec (id x) i) as [E|E].
  - exfalso. apply H. left. exact E.
  - f_equal. apply IH. intros Hin. apply H. right. exact Hin.
Qed.

Lemma drop_toast_absent (i : string) (l : list ToastData) :
  ~ In i (map id l) -> drop_toast i l = l.
Proof.
  induction l as [|x l IH]; simpl; intros H; [reflexivity|].
  destruct (String.eqb_spec (id x) i) as [E|E]; simpl.
  - exfalso. apply H. left. exact E.
  - f_equal. apply IH. intros Hin. apply H. right. exact Hin.
Qed.

Lemma drop_toast_ids (i : string) (l : list ToastData) :
  map id (drop_toast i l) = filter (fun j => negb (String.eqb j i)) (map id l).
Proof.
  induction l as [|x l IH]; simpl; [reflexivity|].
  destruct (String.eqb (id x) i); simpl; rewrite IH; reflexivity.
Qed.

Lemma state_of_in (i : string) (l : list ToastData) :
  In i (map id l) <-> state_of i l <> None.
Proof.
  unfold state_of. induction l as [|x l IH]; simpl.
  - split; [intros []|intros H; apply H; reflexivity].
  - destruct (String.eqb_spec (id x) i) as [E|E]; simpl.
    + split; [discriminate|intros _; left; exact E].
    + rewrite <- IH. split; [intros [H|H]; [contradiction|exact H]|intros H; right; exact H].
Qed.

Lemma state_of_mark_hidden_same (i : string) (l : list ToastData) :
  state_of i (mark_hidden i l) = option_map (fun _ => false) (state_of i l).
Proof.
  unfold state_of. induction l as [|x l IH]; simpl; [reflexivity|].
  destruct (String.eqb_spec (id x) i) as [E|E]; simpl.
  - rewrite E, String.eqb_refl. reflexivity.
  - destruct (String.eqb_spec (id x) i); [contradiction|]. exact IH.
Qed.

Lemma state_of_mark_hidden_other (i j : string) (l : list ToastData) :
  j <> i -> state_of i (mark_hidden j l) = state_of i l.
Proof.
  intros Hji. unfold state_of. induction l as [|x l IH]; simpl; [reflexivity|].
  destruct (String.eqb_spec (id x) j) as [E|E]; simpl.
  - destruct (String.eqb_spec (id x) i) as [E'|E']; [congruence|]. exact IH.
  - destruct (String.eqb_spec (id x) i); [reflexivity|]. exact IH.
Qed.

Lemma state_of_drop_same (i : string) (l : list ToastData) :
  state_of i (drop_toast i l) = None.
Proof.
  unfold state_of. induction l as [|x l IH]; simpl; [reflexivity|].
  destruct (String.eqb_spec (id x) i) as [E|E]; simpl; [exact IH|].
  destruct (String.eqb_spec (id x) i); [contradiction|]. exact IH.
Qed.

Lemma state_of_drop_other (i j : string) (l : list ToastData) :
  j <> i -> state_of i (drop_toast j l) = state_of i l.
Proof.
  intros Hji. unfold state_of. induction l as [|x l IH]; simpl; [reflexivity|].
  destruct (String.eqb_spec (id x) j) as [E|E]; simpl.
  - destruct (String.eqb_spec (id x) i) as [E'|E']; [congruence|]. exact IH.
  - destruct (String.eqb_spec (id x) i); [reflexivity|]. exact IH.
Qed.

Lemma state_of_append_absent (i : string) (l : list ToastData) (x : ToastData) :
  ~ In i (map id l) -> id x = i -> state_of i (append_toast x l) = Some (visible x).
Proof.
  unfold state_of, append_toast. induction l as [|y l IH]; simpl; intros H E.
  - rewrite E, String.eqb_refl. reflexivity.
  - destruct (String.eqb_spec (id y) i) as [E'|E'].
    + exfalso. apply H. left. exact E'.
    + apply IH; [|exact E]. intros Hin. apply H. right. exact Hin.
Qed.

(** ** Timer queues *)

Lemma potential_app (l1 l2 : list Timer) :
  potential (l1 ++ l2) = (potential l1 + potential l2)%nat.
Proof.
  unfold potential. induction l1 as [|tm l1 IH]; simpl; [reflexivity|].
  rewrite IH. lia.
Qed.

Lemma potential_filter (p : Timer -> bool) (l : list Timer) :
  (potential (filter p l) <= potential l)%nat.
Proof.
  unfold potential. induction l as [|tm l IH]; simpl; [lia|].
  destruct (p tm); simpl; lia.
Qed.

Lemma potential_dequeue (tm : Timer) (l : list Timer) :
  In tm l ->
  (potential (filter (other_handle (handle tm)) l) + weight (cb tm) <= potential l)%nat.
Proof.
  unfold potential. induction l as [|x l IH]; simpl; [intros []|].
  intros [E|Hin].
  - subst x. unfold other_handle at 1. rewrite Nat.eqb_refl. simpl.
    pose proof (potential_filter (other_handle (handle tm)) l) as P.
    unfold potential in P. lia.
  - specialize (IH Hin). destruct (other_handle (handle tm) x); simpl; lia.
Qed.

Lemma weight_pos (c : Callback) : (1 <= weight c)%nat.
Proof. destruct c; simpl; lia. Qed.

Lemma potential_zero (l : list Timer) : potential l = 0%nat -> l = [].
Proof.
  destruct l as [|tm l]; [reflexivity|]. unfold potential. simpl.
  pose proof (weight_pos (cb tm)). lia.
Qed.

Lemma earliest_some (l : list Timer) (tm : Timer) :
  earliest l = Some tm ->
  In tm l /\ forall tm', In tm' l -> due tm <= due tm'.
Proof.
  revert tm. induction l as [|x l IH]; simpl; intros tm H; [discriminate|].
  destruct (earliest l) as [y|] eqn:E.
  - destruct (IH y eq_refl) as [Hin Hmin].
    destruct (Z.ltb_spec (due y) (due x)) as [L|L]; inversion H; subst tm.
    + split; [right; exact Hin|].
      intros tm' [E'|H']; [subst tm'; lia|apply Hmin; exact H'].
    + split; [left; reflexivity|].
      intros tm' [E'|H']; [subst tm'; lia|specialize (Hmin tm' H'); lia].
  - inversion H; subst tm. destruct l as [|y l].
    + split; [left; reflexivity|]. intros tm' [E'|[]]. subst tm'. lia.
    + simpl in E. destruct (earliest l) as [z|]; [destruct (due z <? due y)|]; discriminate.
Qed.

Lemma earliest_none (l : list Timer) : earliest l = None -> l = [].
Proof.
  destruct l as [|x l]; [reflexivity|]. simpl.
  destruct (earliest l) as [y|]; [destruct (due y <? due x)|]; discriminate.
Qed.

Lemma next_timer_some (t : Z) (w : World) (tm : Timer) :
  next_timer t w = Some tm ->
  In tm (pending w) /\ due tm <= t /\ forall tm', In tm' (pending w) -> due tm <= due tm'.
Proof.
  unfold next_timer. destruct (earliest (pending w)) as [x|] eqn:E; [|discriminate].
  destruct (Z.leb_spec (due x) t) as [L|L]; [|discriminate].
  intros H. inversion H; subst x. destruct (earliest_some _ _ E) as [Hin Hmin].
  repeat split; assumption.
Qed.

Lemma next_timer_none (t : Z) (w : World) :
  next_timer t w = None -> forall tm, In tm (pending w) -> t < due tm.
Proof.
  unfold next_timer. destruct (earliest (pending w)) as [x|] eqn:E.
  - destruct (Z.leb_spec (due x) t) as [L|L]; [discriminate|].
    intros _ tm Hin. destruct (earliest_some _ _ E) as [_ Hmin].
    specialize (Hmin tm Hin). lia.
  - intros _ tm Hin. apply earliest_none in E. rewrite E in Hin. destruct Hin.
Qed.

Lemma kept_nil (tm : Timer) : kept [] tm = true.
Proof. reflexivity. Qed.

Lemma kept_app (ks1 ks2 : list nat) (tm : Timer) :
  kept (ks1 ++ ks2) tm = kept ks1 tm && kept ks2 tm.
Proof. unfold kept. rewrite existsb_app, negb_orb. reflexivity. Qed.

Lemma kept_true (ks : list nat) (tm : Timer) :
  kept ks tm = true <-> ~ In (handle tm) ks.
Proof.
  unfold kept. rewrite negb_true_iff. split.
  - intros H Hin. assert (E : existsb (Nat.eqb (handle tm)) ks = true).
    { apply existsb_exists. exists (handle tm). split; [exact Hin|apply Nat.eqb_refl]. }
    congruence.
  - intros H. destruct (existsb (Nat.eqb (handle tm)) ks) eqn:E; [|reflexivity].
    apply existsb_exists in E. destruct E as [k [Hin Ek]].
    apply Nat.eqb_eq in Ek. subst k. contradiction.
Qed.

Lemma clear_all_nil (h : Host) : clear_all [] h = h.
Proof.
  unfold clear_all. destruct h as [n l k]. simpl. f_equal.
  induction l as [|x l IH]; simpl; [reflexivity|]. f_equal. exact IH.
Qed.

Lemma clear_all_app (ks1 ks2 : list nat) (h : Host) :
  clear_all ks2 (clear_all ks1 h) = clear_all (ks1 ++ ks2) h.
Proof.
  unfold clear_all. simpl. f_equal.
  induction (timers h) as [|x l IH]; simpl; [reflexivity|].
  rewrite kept_app. destruct (kept ks1 x); simpl; [|exact IH].
  destruct (kept ks2 x); simpl; [f_equal|]; exact IH.
Qed.

Lemma clearTimeout_clear_all (k : nat) (h : Host) : clearTimeout k h = clear_all [k] h.
Proof.
  unfold clearTimeout, clear_all. f_equal. apply filter_ext.
  intros tm. unfold other_handle, kept. simpl. rewrite orb_false_r. reflexivity.
Qed.

Lemma cleanup_clear_all (m : Mounted) (h : Host) : cleanup m h = clear_all (stored [m]) h.
Proof.
  unfold cleanup, stored. simpl. destruct (autoTimer m) as [k|]; simpl.
  - apply clearTimeout_clear_all.
  - symmetry. apply clear_all_nil.
Qed.

Lemma stored_app (l1 l2 : list Mounted) : stored (l1 ++ l2) = stored l1 ++ stored l2.
Proof. unfold stored. apply flat_map_app. Qed.

Lemma stored_in (l : list Mounted) (k : nat) :
  In k (stored l) <-> exists m, In m l /\ autoTimer m = Some k.
Proof.
  unfold stored. rewrite in_flat_map. split.
  - intros [m [Hin Hk]]. exists m. split; [exact Hin|].
    destruct (autoTimer m) as [k'|]; simpl in Hk; [|destruct Hk].
    destruct Hk as [E|[]]. congruence.
  - intros [m [Hin Hk]]. exists m. split; [exact Hin|]. rewrite Hk. left. reflexivity.
Qed.

Lemma fold_cleanup (l : list Mounted) (h : Host) :
  fold_left (fun h m => cleanup m h) l h = clear_all (stored l) h.
Proof.
  revert h. induction l as [|m l IH]; simpl; intros h.
  - symmetry. apply clear_all_nil.
  - rewrite IH, cleanup_clear_all, clear_all_app.
    rewrite <- stored_app. reflexivity.
Qed.

(** ** Normal forms of the operations *)

Lemma hide_item_tame (i : string) : tame (hide_item i) (hide_hits i) (hide_data i).
Proof.
  split.
  - intros m h. unfold hide_item, hide_hits, has_id, visible_effect, set_state,
      autoClose_effect, cleanup. simpl.
    destruct (String.eqb (id (data m)) i); [|reflexivity].
    destruct (visible (data m)); [|reflexivity].
    destruct (isVisible m); simpl; [|rewrite Bool.eqb_reflx; reflexivity].
    rewrite andb_false_r. reflexivity.
  - intros m. unfold hide_item, visible_effect, set_state, autoClose_effect. simpl.
    destruct (String.eqb (id (data m)) i); [|reflexivity].
    destruct (visible (data m)); [|reflexivity].
    destruct (isVisible m); simpl; [|rewrite Bool.eqb_reflx; reflexivity].
    rewrite andb_false_r. reflexivity.
  - intros m. unfold hide_item, hide_data, visible_effect, set_state, autoClose_effect. simpl.
    destruct (String.eqb (id (data m)) i); [|reflexivity].
    destruct (visible (data m)); [|reflexivity].
    destruct (isVisible m); simpl; [|rewrite Bool.eqb_reflx; reflexivity].
    rewrite andb_false_r. reflexivity.
  - intros d. unfold hide_data. destruct (String.eqb (id d) i); reflexivity.
  - intros m. unfold hide_item, hide_hits, has_id, visible_effect, set_state,
      autoClose_effect. simpl.
    destruct (String.eqb (id (data m)) i); [|reflexivity].
    destruct (visible (data m)); [|reflexivity].
    destruct (isVisible m); simpl; [|rewrite Bool.eqb_reflx; reflexivity].
    rewrite andb_false_r. reflexivity.
Qed.

Lemma leave_item_tame (n : nat) : tame (leave_item n) (leave_hits n) (fun d => d).
Proof.
  split; try reflexivity;
    intros m; try intros h;
    unfold leave_item, leave_hits, set_state, autoClose_effect; simpl;
    destruct (Nat.eqb (inst m) n); try reflexivity;
    rewrite Bool.eqb_reflx; simpl;
    destruct (isLeaving m); simpl; try reflexivity;
    rewrite andb_false_r; reflexivity.
Qed.

Lemma vanish_item_tame (n : nat) : tame (vanish_item n) (vanish_hits n) (fun d => d).
Proof.
  split; try reflexivity;
    intros m; try intros h;
    unfold vanish_item, vanish_hits, set_state, autoClose_effect; simpl;
    destruct (Nat.eqb (inst m) n); try reflexivity;
    rewrite Bool.eqb_reflx, andb_true_r; simpl;
    destruct (isVisible m); simpl; try reflexivity;
    rewrite andb_false_r; reflexivity.
Qed.

Section Tame.

Variable f : Mounted -> Host -> Mounted * Host.
Variable c : Mounted -> bool.
Variable g : ToastData -> ToastData.
Hypothesis Hf : tame f c g.

Lemma for_each_tame (l : list Mounted) (h : Host) :
  for_each f l h = (map (fun m => fst (f m idle)) l, clear_all (stored (filter c l)) h).
Proof.
  revert h. induction l as [|m l IH]; simpl; intros h.
  - rewrite clear_all_nil. reflexivity.
  - rewrite (tame_eq _ _ _ Hf m h), IH. f_equal.
    destruct (c m).
    + rewrite cleanup_clear_all, clear_all_app, <- stored_app. reflexivity.
    + reflexivity.
Qed.

Lemma settle_tame (w : World) :
  settle f w =
  {| host := clear_all (stored (filter c (items w))) (host w);
     items := map (fun m => fst (f m idle)) (items w);
     next_inst := next_inst w |}.
Proof. unfold settle. rewrite for_each_tame. reflexivity. Qed.

Lemma settle_toasts (w : World) : toasts (settle f w) = map g (toasts w).
Proof.
  rewrite settle_tame. unfold toasts. simpl. rewrite !map_map.
  apply map_ext. intros m. apply (tame_data _ _ _ Hf).
Qed.

Lemma settle_ids (w : World) : ids (settle f w) = ids w.
Proof.
  unfold ids. rewrite settle_toasts, map_map. apply map_ext.
  intros d. apply (tame_id _ _ _ Hf).
Qed.

Lemma settle_clock (w : World) : clock (settle f w) = clock w.
Proof. rewrite settle_tame. reflexivity. Qed.

Lemma settle_next_handle (w : World) :
  next_handle (host (settle f w)) = next_handle (host w).
Proof. rewrite settle_tame. reflexivity. Qed.

Lemma settle_next_inst (w : World) : next_inst (settle f w) = next_inst w.
Proof. rewrite settle_tame. reflexivity. Qed.

Lemma settle_pending (w : World) :
  pending (settle f w) = filter (kept (stored (filter c (items w)))) (pending w).
Proof. rewrite settle_tame. reflexivity. Qed.

Lemma settle_pending_in (w : World) (tm : Timer) :
  In tm (pending (settle f w)) <->
  In tm (pending w) /\
  ~ exists m, In m (items w) /\ c m = true /\ autoTimer m = Some (handle tm).
Proof.
  rewrite settle_pending, filter_In, kept_true, stored_in.
  split; intros [H1 H2]; (split; [exact H1|]); intros [m [Ha Hb]]; apply H2; exists m.
  - destruct Hb as [Hb Hc]. split; [apply filter_In; split; assumption|assumption].
  - apply filter_In in Ha. destruct Ha as [Ha Hc]. repeat split; assumption.
Qed.

Lemma settle_potential (w : World) :
  (potential (pending (settle f w)) <= potential (pending w))%nat.
Proof. rewrite settle_pending. apply potential_filter. Qed.

Lemma settle_items_in (w : World) (m' : Mounted) :
  In m' (items (settle f w)) ->
  exists m, In m (items w) /\ inst m' = inst m /\ data m' = g (data m) /\
            autoTimer m' = if c m then None else autoTimer m.
Proof.
  rewrite settle_tame. simpl. rewrite in_map_iff. intros [m [E Hin]].
  exists m. subst m'. split; [exact Hin|].
  split; [apply (tame_inst _ _ _ Hf)|].
  split; [apply (tame_data _ _ _ Hf)|apply (tame_timer _ _ _ Hf)].
Qed.

End Tame.

Lemma hideToast_eq (i : string) (w : World) :
  hideToast i w = settle (hide_item i) (schedule (Cleanup i) 500 w).
Proof. reflexivity. Qed.

Lemma handleClose_eq (n : nat) (i : string) (w : World) :
  handleClose n i w = settle (leave_item n) (schedule (CloseDone n i) 300 w).
Proof. reflexivity. Qed.

Lemma closeDone_eq (n : nat) (i : string) (w : World) :
  closeDone n i w = hideToast i (settle (vanish_item n) w).
Proof.
  unfold closeDone, settle. destruct (for_each (vanish_item n) (items w) (host w)).
  reflexivity.
Qed.

Lemma removeToast_eq (i : string) (w : World) :
  removeToast i w =
  {| host := clear_all (stored (filter (has_id i) (items w))) (host w);
     items := filter (fun m => negb (has_id i m)) (items w);
     next_inst := next_inst w |}.
Proof. unfold removeToast. rewrite fold_cleanup. reflexivity. Qed.

Lemma or_default_duration_nonzero (x : option number) :
  number_falsy (or_default number_falsy x 5000) = false.
Proof.
  unfold or_default. destruct x as [v|]; [|reflexivity].
  destruct (number_falsy v) eqn:E; [reflexivity|exact E].
Qed.

Lemma showToast_eq (r : string) (o : ToastOptions) (w : World) :
  showToast r o w =
  (random_id r,
   {| host := snd (setTimeout (AutoClose (next_inst w) (random_id r))
                              (or_default number_falsy (duration o) 5000) (host w));
      items := items w ++ [shown (random_id r) o w];
      next_inst := S (next_inst w) |}).
Proof.
  unfold showToast, showToast_call, render, mount, autoClose_effect, toast_duration.
  simpl. rewrite or_default_duration_nonzero. reflexivity.
Qed.

(** ** Running timers terminates *)

Lemma schedule_pending (c : Callback) (d : number) (w : World) :
  pending (schedule c d w) =
  pending w ++ [{| due := clock w + timer_delay d; handle := next_handle (host w); cb := c |}].
Proof. reflexivity. Qed.

Lemma hideToast_potential (i : string) (w : World) :
  (potential (pending (hideToast i w)) <= potential (pending w) + 1)%nat.
Proof.
  rewrite hideToast_eq.
  pose proof (settle_potential _ _ _ (hide_item_tame i) (schedule (Cleanup i) 500 w)) as P.
  rewrite schedule_pending, potential_app in P. simpl in P. lia.
Qed.

Lemma removeToast_pending (i : string) (w : World) :
  pending (removeToast i w) =
  filter (kept (stored (filter (has_id i) (items w)))) (pending w).
Proof. rewrite removeToast_eq. reflexivity. Qed.

Lemma removeToast_potential (i : string) (w : World) :
  (potential (pending (removeToast i w)) <= potential (pending w))%nat.
Proof. rewrite removeToast_pending. apply potential_filter. Qed.

Lemma handleClose_potential (n : nat) (i : string) (w : World) :
  (potential (pending (handleClose n i w)) <= potential (pending w) + 2)%nat.
Proof.
  rewrite handleClose_eq.
  pose proof (settle_potential _ _ _ (leave_item_tame n) (schedule (CloseDone n i) 300 w)) as P.
  rewrite schedule_pending, potential_app in P. simpl in P. lia.
Qed.

Lemma closeDone_potential (n : nat) (i : string) (w : World) :
  (potential (pending (closeDone n i w)) <= potential (pending w) + 1)%nat.
Proof.
  rewrite closeDone_eq.
  pose proof (hideToast_potential i (settle (vanish_item n) w)) as P.
  pose proof (settle_potential _ _ _ (vanish_item_tame n) w) as Q.
  lia.
Qed.

Lemma dequeue_potential (tm : Timer) (w : World) :
  In tm (pending w) ->
  (potential (pending (dequeue tm w)) + weight (cb tm) <= potential (pending w))%nat.
Proof. intros Hin. exact (potential_dequeue tm (pending w) Hin). Qed.

Lemma fire_potential (tm : Timer) (w : World) :
  In tm (pending w) ->
  (potential (pending (fire tm w)) < potential (pending w))%nat.
Proof.
  intros Hin. pose proof (dequeue_potential tm w Hin) as D.
  unfold fire. destruct (cb tm) as [i|n i|n i]; unfold run, weight in *.
  - pose proof (removeToast_potential i (dequeue tm w)). lia.
  - pose proof (handleClose_potential n i (dequeue tm w)). lia.
  - pose proof (closeDone_potential n i (dequeue tm w)). lia.
Qed.

Lemma advance_fuel_enough (t : Z) (n m : nat) (w : World) :
  (potential (pending w) <= n)%nat -> (potential (pending w) <= m)%nat ->
  advance_fuel n t w = advance_fuel m t w.
Proof.
  revert m w. induction n as [|n IH]; intros m w Hn Hm.
  - assert (E : pending w = []) by (apply potential_zero; lia).
    destruct m as [|m]; simpl; [reflexivity|].
    unfold next_timer. rewrite E. reflexivity.
  - destruct m as [|m].
    + assert (E : pending w = []) by (apply potential_zero; lia).
      simpl. unfold next_timer. rewrite E. reflexivity.
    + simpl. destruct (next_timer t w) as [tm|] eqn:N; [|reflexivity].
      apply next_timer_some in N. destruct N as [Hin _].
      pose proof (fire_potential tm w Hin). apply IH; lia.
Qed.

Lemma advance_unfold (t : Z) (w : World) :
  advance t w =
  match next_timer t w with
  | Some tm => advance t (fire tm w)
  | None => elapse t w
  end.
Proof.
  unfold advance. destruct (potential (pending w)) as [|n] eqn:P.
  - apply potential_zero in P. simpl. unfold next_timer. rewrite P. reflexivity.
  - simpl. destruct (next_timer t w) as [tm|] eqn:N; [|reflexivity].
    apply next_timer_some in N. destruct N as [Hin _].
    pose proof (fire_potential tm w Hin). apply advance_fuel_enough; lia.
Qed.

(** Induction along a run of [advance]: a property kept by every timer
    that fires holds in the world in which nothing more is due. *)
Lemma advance_run (t : Z) (P : World -> Prop) :
  (forall w tm, P w -> next_timer t w = Some tm -> P (fire tm w)) ->
  forall w, P w ->
  exists w', P w' /\ next_timer t w' = None /\ advance t w = elapse t w'.
Proof.
  intros Hstep w. remember (potential (pending w)) as n eqn:En.
  revert w En. induction n as [n IH] using lt_wf_ind. intros w En Hw.
  rewrite advance_unfold. destruct (next_timer t w) as [tm|] eqn:N.
  - pose proof N as N'. apply next_timer_some in N'. destruct N' as [Hin _].
    pose proof (fire_potential tm w Hin).
    apply (IH (potential (pending (fire tm w)))); [lia|reflexivity|].
    apply Hstep; assumption.
  - exists w. repeat split; assumption.
Qed.

Lemma advance_keeps (t : Z) (P : World -> Prop) :
  (forall w tm, P w -> next_timer t w = Some tm -> P (fire tm w)) ->
  (forall w, P w -> next_timer t w = None -> P (elapse t w)) ->
  forall w, P w -> P (advance t w).
Proof.
  intros Hstep Hend w Hw.
  destruct (advance_run t P Hstep w Hw) as [w' [Hw' [N E]]].
  rewrite E. apply Hend; assumption.
Qed.

(** ** The invariant [sane] *)

(** Clearing timers keeps the handles of the queue distinct. *)
Lemma handles_filter (keep : Timer -> bool) (q : list Timer) :
  NoDup (map handle q) -> NoDup (map handle (filter keep q)).
Proof.
  intros N. induction q as [|tm q IH]; simpl; [constructor|].
  simpl in N. apply NoDup_cons_iff in N. destruct N as [Hn Hq].
  destruct (keep tm); simpl; [|exact (IH Hq)].
  apply NoDup_cons_iff. split; [|exact (IH Hq)].
  rewrite in_map_iff. intros [tm' [E H]]. apply filter_In in H.
  apply Hn. rewrite in_map_iff. exists tm'. split; [exact E|apply H].
Qed.

Lemma init_sane (t : Z) : sane (init t).
Proof.
  split; simpl; try (intros; contradiction). constructor.
Qed.

Lemma schedule_sane (c : Callback) (d : number) (w : World) :
  sane w ->
  (forall i, c = Cleanup i -> timer_delay d <= 500) ->
  (forall n, owner c = Some n -> (n < next_inst w)%nat) ->
  sane (schedule c d w).
Proof.
  intros [S1 S2 S3 S4 S5 S6 S7] Hd Hn. pose proof (timer_delay_nonneg d) as Hp. split.
  - intros tm. rewrite schedule_pending, in_app_iff. simpl.
    intros [H|[H|[]]]; [specialize (S1 tm H); lia|subst tm; simpl; lia].
  - rewrite schedule_pending, map_app. apply NoDup_app; [exact S2| |].
    + simpl. constructor; [intros []|constructor].
    + intros k Hk [E|[]]. simpl in E. subst k.
      apply in_map_iff in Hk. destruct Hk as [tm [E Hin]].
      specialize (S1 tm Hin). lia.
  - intros m k Hin Hk. destruct (S3 m k Hin Hk) as [Hlt Hcb].
    split; [simpl; lia|].
    intros tm. rewrite schedule_pending, in_app_iff. simpl.
    intros [H|[H|[]]] E; [apply Hcb; assumption|].
    subst tm. simpl in E. lia.
  - intros tm. rewrite schedule_pending, in_app_iff. simpl.
    intros [H|[H|[]]]; [apply S4; exact H|]. subst tm. simpl. unfold clock. simpl. lia.
  - intros tm i. rewrite schedule_pending, in_app_iff. simpl.
    intros [H|[H|[]]] E; [apply (S5 tm i); assumption|].
    subst tm. simpl in *. specialize (Hd i E). unfold clock. simpl. lia.
  - exact S6.
  - intros tm n. rewrite schedule_pending, in_app_iff. simpl.
    intros [H|[H|[]]] E; [apply (S7 tm n); assumption|].
    subst tm. simpl in E. apply Hn. exact E.
Qed.

Lemma settle_sane (f : Mounted -> Host -> Mounted * Host) (c : Mounted -> bool)
      (g : ToastData -> ToastData) (w : World) :
  tame f c g -> sane w -> sane (settle f w).
Proof.
  intros Hf [S1 S2 S3 S4 S5 S6 S7].
  assert (Sub : forall tm, In tm (pending (settle f w)) -> In tm (pending w)).
  { intros tm H. apply (settle_pending_in f c g Hf) in H. apply H. }
  split.
  - intros tm H. rewrite (settle_next_handle f c g Hf). apply S1, Sub, H.
  - rewrite (settle_pending f c g Hf). apply handles_filter. exact S2.
  - intros m' k Hin Hk.
    destruct (settle_items_in f c g Hf w m' Hin) as [m [Hm [Ei [Ed Et]]]].
    rewrite (settle_next_handle f c g Hf).
    assert (Hk' : autoTimer m = Some k).
    { rewrite Hk in Et. destruct (c m); [discriminate|]. symmetry. exact Et. }
    destruct (S3 m k Hm Hk') as [Hlt Hcb]. split; [exact Hlt|].
    intros tm H E. rewrite Ei, Ed, (tame_id _ _ _ Hf). apply Hcb; [apply Sub; exact H|exact E].
  - intros tm H. rewrite (settle_clock f c g Hf). apply S4, Sub, H.
  - intros tm i H E. rewrite (settle_clock f c g Hf). apply (S5 tm i); [apply Sub; exact H|exact E].
  - intros m' Hin. destruct (settle_items_in f c g Hf w m' Hin) as [m [Hm [Ei _]]].
    rewrite (settle_next_inst f c g Hf), Ei. apply S6. exact Hm.
  - intros tm n H E. rewrite (settle_next_inst f c g Hf).
    apply (S7 tm n); [apply Sub; exact H|exact E].
Qed.

Lemma removeToast_pending_in (i : string) (w : World) (tm : Timer) :
  In tm (pending (removeToast i w)) <->
  In tm (pending w) /\
  ~ exists m, In m (items w) /\ has_id i m = true /\ autoTimer m = Some (handle tm).
Proof.
  rewrite removeToast_pending, filter_In, kept_true, stored_in.
  split; intros [H1 H2]; (split; [exact H1|]); intros [m [Ha Hb]]; apply H2; exists m.
  - destruct Hb as [Hb Hc]. split; [apply filter_In; split; assumption|assumption].
  - apply filter_In in Ha. destruct Ha as [Ha Hc]. repeat split; assumption.
Qed.

Lemma removeToast_items (i : string) (w : World) :
  items (removeToast i w) = filter (fun m => negb (has_id i m)) (items w).
Proof. reflexivity. Qed.

Lemma removeToast_sane (i : string) (w : World) : sane w -> sane (removeToast i w).
Proof.
  intros [S1 S2 S3 S4 S5 S6 S7].
  assert (Sub : forall tm, In tm (pending (removeToast i w)) -> In tm (pending w)).
  { intros tm H. apply removeToast_pending_in in H. apply H. }
  assert (Sui : forall m, In m (items (removeToast i w)) -> In m (items w)).
  { intros m H. rewrite removeToast_items in H. apply filter_In in H. apply H. }
  assert (En : next_handle (host (removeToast i w)) = next_handle (host w)).
  { rewrite removeToast_eq. reflexivity. }
  assert (Ec : clock (removeToast i w) = clock w).
  { rewrite removeToast_eq. reflexivity. }
  split.
  - intros tm H. rewrite En. apply S1, Sub, H.
  - rewrite removeToast_pending. apply handles_filter. exact S2.
  - intros m k Hin Hk. rewrite En.
    destruct (S3 m k (Sui m Hin) Hk) as [Hlt Hcb]. split; [exact Hlt|].
    intros tm H E. apply Hcb; [apply Sub; exact H|exact E].
  - intros tm H. rewrite Ec. apply S4, Sub, H.
  - intros tm j H E. rewrite Ec. apply (S5 tm j); [apply Sub; exact H|exact E].
  - intros m Hin. apply S6, Sui, Hin.
  - intros tm n H E. apply (S7 tm n); [apply Sub; exact H|exact E].
Qed.

Lemma dequeue_pending_in (tm : Timer) (w : World) (tm' : Timer) :
  In tm' (pending (dequeue tm w)) <-> In tm' (pending w) /\ handle tm' <> handle tm.
Proof.
  unfold dequeue, pending. simpl. rewrite filter_In. unfold other_handle.
  rewrite negb_true_iff, Nat.eqb_neq. reflexivity.
Qed.

Lemma dequeue_clock (tm : Timer) (w : World) :
  clock (dequeue tm w) = Z.max (clock w) (due tm).
Proof. reflexivity. Qed.

Lemma dequeue_sane (tm : Timer) (w : World) :
  sane w -> In tm (pending w) ->
  (forall tm', In tm' (pending w) -> due tm <= due tm') ->
  sane (dequeue tm w).
Proof.
  intros [S1 S2 S3 S4 S5 S6 S7] Hin Hmin.
  assert (Sub : forall tm', In tm' (pending (dequeue tm w)) -> In tm' (pending w)).
  { intros tm' H. apply dequeue_pending_in in H. apply H. }
  split.
  - intros tm' H. apply S1, Sub, H.
  - unfold dequeue, pending. simpl. apply handles_filter. exact S2.
  - intros m k Hm Hk. destruct (S3 m k Hm Hk) as [Hlt Hcb]. split; [exact Hlt|].
    intros tm' H E. apply Hcb; [apply Sub; exact H|exact E].
  - intros tm' H. rewrite dequeue_clock. apply Sub in H.
    specialize (S4 tm' H). specialize (Hmin tm' H). lia.
  - intros tm' i H E. rewrite dequeue_clock. apply Sub in H.
    specialize (S5 tm' i H E). lia.
  - exact S6.
  - intros tm' n H E. apply (S7 tm' n); [apply Sub; exact H|exact E].
Qed.

Lemma elapse_sane (t : Z) (w : World) :
  sane w -> (forall tm, In tm (pending w) -> t < due tm) -> sane (elapse t w).
Proof.
  intros [S1 S2 S3 S4 S5 S6 S7] Hlate. split; try assumption.
  - intros tm H. unfold clock, elapse. simpl.
    specialize (S4 tm H). specialize (Hlate tm H). unfold clock in S4. lia.
  - intros tm i H E. unfold clock, elapse. simpl.
    specialize (S5 tm i H E). unfold clock in S5. lia.
Qed.

Lemma hideToast_sane (i : string) (w : World) : sane w -> sane (hideToast i w).
Proof.
  intros S. rewrite hideToast_eq.
  apply (settle_sane _ _ _ _ (hide_item_tame i)).
  apply schedule_sane; [exact S|intros; rewrite timer_delay_500; lia|intros n E; discriminate].
Qed.

Lemma handleClose_sane (n : nat) (i : string) (w : World) :
  sane w -> (n < next_inst w)%nat -> sane (handleClose n i w).
Proof.
  intros S Hn. rewrite handleClose_eq.
  apply (settle_sane _ _ _ _ (leave_item_tame n)).
  apply schedule_sane; [exact S|intros j E; discriminate|].
  intros n' E. simpl in E. inversion E. subst n'. exact Hn.
Qed.

Lemma closeDone_sane (n : nat) (i : string) (w : World) : sane w -> sane (closeDone n i w).
Proof.
  intros S. rewrite closeDone_eq. apply hideToast_sane.
  apply (settle_sane _ _ _ _ (vanish_item_tame n)). exact S.
Qed.

Lemma fire_sane (t : Z) (tm : Timer) (w : World) :
  sane w -> next_timer t w = Some tm -> sane (fire tm w).
Proof.
  intros S N. apply next_timer_some in N. destruct N as [Hin [_ Hmin]].
  pose proof (dequeue_sane tm w S Hin Hmin) as D.
  unfold fire. destruct (cb tm) as [i|n i|n i] eqn:E; unfold run.
  - apply removeToast_sane. exact D.
  - apply handleClose_sane; [exact D|].
    change (next_inst (dequeue tm w)) with (next_inst w).
    apply (sane_owners w S tm n Hin). rewrite E. reflexivity.
  - apply closeDone_sane. exact D.
Qed.

Lemma advance_sane (t : Z) (w : World) : sane w -> sane (advance t w).
Proof.
  apply (advance_keeps t sane).
  - intros w' tm S N. exact (fire_sane t tm w' S N).
  - intros w' S N. apply elapse_sane; [exact S|]. apply next_timer_none. exact N.
Qed.

Lemma showToast_world (r : string) (o : ToastOptions) (w : World) :
  snd (showToast r o w) =
  {| host := host (schedule (AutoClose (next_inst w) (random_id r))
                            (or_default number_falsy (duration o) 5000) w);
     items := items w ++ [shown (random_id r) o w];
     next_inst := S (next_inst w) |}.
Proof. rewrite showToast_eq. reflexivity. Qed.

Lemma showToast_pending (r : string) (o : ToastOptions) (w : World) :
  pending (snd (showToast r o w)) =
  pending w ++ [{| due := clock w + timer_delay (or_default number_falsy (duration o) 5000);
                   handle := next_handle (host w);
                   cb := AutoClose (next_inst w) (random_id r) |}].
Proof. rewrite showToast_world. reflexivity. Qed.

Lemma showToast_sane (r : string) (o : ToastOptions) (w : World) :
  sane w -> sane (snd (showToast r o w)).
Proof.
  intros [S1 S2 S3 S4 S5 S6 S7].
  pose proof (timer_delay_nonneg (or_default number_falsy (duration o) 5000)) as Hp.
  split; try rewrite showToast_pending; try rewrite showToast_world; simpl.
  - intros tm. rewrite in_app_iff. simpl.
    intros [H|[H|[]]]; [specialize (S1 tm H); lia|subst tm; simpl; lia].
  - rewrite map_app. apply NoDup_app; [exact S2| |].
    + simpl. constructor; [intros []|constructor].
    + intros k Hk [E|[]]. simpl in E. subst k.
      apply in_map_iff in Hk. destruct Hk as [tm [E Hin]].
      specialize (S1 tm Hin). lia.
  - intros m k. rewrite in_app_iff. simpl. intros [Hin|[E|[]]] Hk.
    + destruct (S3 m k Hin Hk) as [Hlt Hcb]. split; [lia|].
      intros tm. rewrite in_app_iff. simpl.
      intros [H|[H|[]]] E; [apply Hcb; assumption|].
      subst tm. simpl in E. lia.
    + subst m. simpl in *. inversion Hk. subst k. split; [lia|].
      intros tm. rewrite in_app_iff. simpl.
      intros [H|[H|[]]] E; [specialize (S1 tm H); lia|].
      subst tm. reflexivity.
  - intros tm. rewrite in_app_iff. simpl.
    intros [H|[H|[]]]; [apply S4; exact H|]. subst tm. simpl. unfold clock. simpl. lia.
  - intros tm i. rewrite in_app_iff. simpl.
    intros [H|[H|[]]] E; [apply (S5 tm i); assumption|]. subst tm. discriminate.
  - intros m. rewrite in_app_iff. simpl.
    intros [H|[H|[]]]; [specialize (S6 m H); lia|subst m; simpl; lia].
  - intros tm n. rewrite in_app_iff. simpl.
    intros [H|[H|[]]] E; [specialize (S7 tm n H E); lia|].
    subst tm. simpl in E. inversion E. lia.
Qed.

(** ** What each operation does to the collection, the clock and the queue *)

Lemma mark_hidden_map (i : string) (l : list ToastData) :
  mark_hidden i l = map (hide_data i) l.
Proof. reflexivity. Qed.

Lemma toasts_hideToast (i : string) (w : World) :
  toasts (hideToast i w) = mark_hidden i (toasts w).
Proof. rewrite hideToast_eq, (settle_toasts _ _ _ (hide_item_tame i)). reflexivity. Qed.

Lemma toasts_handleClose (n : nat) (i : string) (w : World) :
  toasts (handleClose n i w) = toasts w.
Proof.
  rewrite handleClose_eq, (settle_toasts _ _ _ (leave_item_tame n)). apply map_id.
Qed.

Lemma toasts_closeDone (n : nat) (i : string) (w : World) :
  toasts (closeDone n i w) = mark_hidden i (toasts w).
Proof.
  rewrite closeDone_eq, toasts_hideToast, (settle_toasts _ _ _ (vanish_item_tame n)).
  rewrite map_id. reflexivity.
Qed.

Lemma toasts_removeToast (i : string) (w : World) :
  toasts (removeToast i w) = drop_toast i (toasts w).
Proof.
  unfold toasts. rewrite removeToast_items. unfold drop_toast, has_id.
  induction (items w) as [|m l IH]; simpl; [reflexivity|].
  destruct (String.eqb (id (data m)) i); simpl; rewrite IH; reflexivity.
Qed.

Lemma toasts_fire (tm : Timer) (w : World) :
  toasts (fire tm w) =
  match cb tm with
  | Cleanup i => drop_toast i (toasts w)
  | AutoClose _ _ => toasts w
  | CloseDone _ i => mark_hidden i (toasts w)
  end.
Proof.
  unfold fire. destruct (cb tm) as [i|n i|n i]; unfold run.
  - rewrite toasts_removeToast. reflexivity.
  - rewrite toasts_handleClose. reflexivity.
  - rewrite toasts_closeDone. reflexivity.
Qed.

Lemma toasts_showToast (r : string) (o : ToastOptions) (w : World) :
  toasts (snd (showToast r o w)) = append_toast (new_toast (random_id r) o) (toasts w).
Proof. rewrite showToast_world. unfold toasts. simpl. apply map_app. Qed.

Lemma toasts_elapse (t : Z) (w : World) : toasts (elapse t w) = toasts w.
Proof. reflexivity. Qed.

Lemma clock_hideToast (i : string) (w : World) : clock (hideToast i w) = clock w.
Proof. rewrite hideToast_eq, (settle_clock _ _ _ (hide_item_tame i)). reflexivity. Qed.

Lemma clock_handleClose (n : nat) (i : string) (w : World) :
  clock (handleClose n i w) = clock w.
Proof. rewrite handleClose_eq, (settle_clock _ _ _ (leave_item_tame n)). reflexivity. Qed.

Lemma clock_closeDone (n : nat) (i : string) (w : World) : clock (closeDone n i w) = clock w.
Proof.
  rewrite closeDone_eq, clock_hideToast. apply (settle_clock _ _ _ (vanish_item_tame n)).
Qed.

Lemma clock_removeToast (i : string) (w : World) : clock (removeToast i w) = clock w.
Proof. rewrite removeToast_eq. reflexivity. Qed.

Lemma clock_fire (tm : Timer) (w : World) :
  clock (fire tm w) = Z.max (clock w) (due tm).
Proof.
  unfold fire. destruct (cb tm) as [i|n i|n i]; unfold run.
  - rewrite clock_removeToast. reflexivity.
  - rewrite clock_handleClose. reflexivity.
  - rewrite clock_closeDone. reflexivity.
Qed.

Lemma clock_showToast (r : string) (o : ToastOptions) (w : World) :
  clock (snd (showToast r o w)) = clock w.
Proof. rewrite showToast_world. reflexivity. Qed.

Lemma clock_elapse (t : Z) (w : World) : clock (elapse t w) = Z.max (clock w) t.
Proof. reflexivity. Qed.

Lemma handle_inj (l : list Timer) (a b : Timer) :
  NoDup (map handle l) -> In a l -> In b l -> handle a = handle b -> a = b.
Proof.
  induction l as [|x l IH]; simpl; intros N Ha Hb E; [destruct Ha|].
  inversion N as [|? ? Hn Hl]; subst.
  destruct Ha as [Ha|Ha], Hb as [Hb|Hb].
  - congruence.
  - subst x. exfalso. apply Hn. rewrite E. apply in_map. exact Hb.
  - subst x. exfalso. apply Hn. rewrite <- E. apply in_map. exact Ha.
  - apply IH; assumption.
Qed.

(** A traversal keeps a pending timer unless it is the auto-close timer of
    an instance the traversal cleans up. *)
Lemma settle_keeps (f : Mounted -> Host -> Mounted * Host) (c : Mounted -> bool)
      (g : ToastData -> ToastData) (w : World) (tm : Timer) :
  tame f c g -> sane w -> In tm (pending w) ->
  (forall m, In m (items w) -> c m = true -> cb tm <> AutoClose (inst m) (id (data m))) ->
  In tm (pending (settle f w)).
Proof.
  intros Hf S Hin Hc. apply (settle_pending_in f c g Hf). split; [exact Hin|].
  intros [m [Hm [Hcm Hk]]].
  destruct (sane_stored w S m (handle tm) Hm Hk) as [_ Hcb].
  apply (Hc m Hm Hcm). apply Hcb; [exact Hin|reflexivity].
Qed.

Lemma schedule_new (c : Callback) (d : number) (w : World) :
  In {| due := clock w + timer_delay d; handle := next_handle (host w); cb := c |}
     (pending (schedule c d w)).
Proof. rewrite schedule_pending. apply in_or_app. right. left. reflexivity. Qed.

Lemma schedule_old (c : Callback) (d : number) (w : World) (tm : Timer) :
  In tm (pending w) -> In tm (pending (schedule c d w)).
Proof. intros H. rewrite schedule_pending. apply in_or_app. left. exact H. Qed.

(** A traversal right after a [setTimeout] keeps the new timer: no cleanup
    holds its handle yet. *)
Lemma settle_schedule_new (f : Mounted -> Host -> Mounted * Host) (c : Mounted -> bool)
      (g : ToastData -> ToastData) (k : Callback) (d : number) (w : World) :
  tame f c g -> sane w ->
  In {| due := clock w + timer_delay d; handle := next_handle (host w); cb := k |}
     (pending (settle f (schedule k d w))).
Proof.
  intros Hf S. apply (settle_pending_in f c g Hf). split; [apply schedule_new|].
  intros [m [Hm [_ Hk]]]. simpl in Hk.
  destruct (sane_stored w S m _ Hm Hk) as [Hlt _]. lia.
Qed.

Lemma settle_schedule_in (f : Mounted -> Host -> Mounted * Host) (c : Mounted -> bool)
      (g : ToastData -> ToastData) (k : Callback) (d : number) (w : World) (tm : Timer) :
  tame f c g ->
  In tm (pending (settle f (schedule k d w))) ->
  In tm (pending w) \/
  tm = {| due := clock w + timer_delay d; handle := next_handle (host w); cb := k |}.
Proof.
  intros Hf H. apply (settle_pending_in f c g Hf) in H. destruct H as [H _].
  rewrite schedule_pending in H. apply in_app_or in H.
  destruct H as [H|[H|[]]]; [left; exact H|right; symmetry; exact H].
Qed.

Lemma hideToast_pending_in (i : string) (w : World) (tm : Timer) :
  In tm (pending (hideToast i w)) ->
  In tm (pending w) \/
  tm = {| due := clock w + 500; handle := next_handle (host w); cb := Cleanup i |}.
Proof.
  rewrite hideToast_eq. intros H.
  exact (settle_schedule_in _ _ _ (Cleanup i) 500 w tm (hide_item_tame i) H).
Qed.

Lemma hideToast_new (i : string) (w : World) :
  sane w ->
  In {| due := clock w + 500; handle := next_handle (host w); cb := Cleanup i |}
     (pending (hideToast i w)).
Proof.
  intros S. rewrite hideToast_eq.
  exact (settle_schedule_new _ _ _ (Cleanup i) 500 w (hide_item_tame i) S).
Qed.

Lemma hide_hits_id (i : string) (m : Mounted) : hide_hits i m = true -> id (data m) = i.
Proof.
  unfold hide_hits, has_id. intros H.
  apply andb_true_iff in H. destruct H as [H _].
  apply andb_true_iff in H. destruct H as [H _].
  apply String.eqb_eq. exact H.
Qed.

Lemma hideToast_keeps (i : string) (w : World) (tm : Timer) :
  sane w -> In tm (pending w) ->
  (forall n, cb tm <> AutoClose n i) ->
  In tm (pending (hideToast i w)).
Proof.
  intros S Hin Hc. rewrite hideToast_eq.
  assert (S' : sane (schedule (Cleanup i) 500 w)).
  { apply schedule_sane; [exact S|intros; rewrite timer_delay_500; lia|intros n E; discriminate]. }
  apply (settle_keeps _ _ _ _ _ (hide_item_tame i) S'); [apply schedule_old; exact Hin|].
  intros m Hm Hh E. apply hide_hits_id in Hh. rewrite Hh in E. exact (Hc _ E).
Qed.

Lemma handleClose_pending_in (n : nat) (i : string) (w : World) (tm : Timer) :
  In tm (pending (handleClose n i w)) ->
  In tm (pending w) \/
  tm = {| due := clock w + 300; handle := next_handle (host w); cb := CloseDone n i |}.
Proof.
  rewrite handleClose_eq. intros H.
  exact (settle_schedule_in _ _ _ (CloseDone n i) 300 w tm (leave_item_tame n) H).
Qed.

Lemma handleClose_new (n : nat) (i : string) (w : World) :
  sane w ->
  In {| due := clock w + 300; handle := next_handle (host w); cb := CloseDone n i |}
     (pending (handleClose n i w)).
Proof.
  intros S. rewrite handleClose_eq.
  exact (settle_schedule_new _ _ _ (CloseDone n i) 300 w (leave_item_tame n) S).
Qed.

Lemma handleClose_keeps (n : nat) (i : string) (w : World) (tm : Timer) :
  sane w -> (n < next_inst w)%nat -> In tm (pending w) ->
  (forall j, cb tm <> AutoClose n j) ->
  In tm (pending (handleClose n i w)).
Proof.
  intros S Hn Hin Hc. rewrite handleClose_eq.
  assert (S' : sane (schedule (CloseDone n i) 300 w)).
  { apply schedule_sane; [exact S|intros j E; discriminate|].
    intros n' E. simpl in E. inversion E. subst n'. exact Hn. }
  apply (settle_keeps _ _ _ _ _ (leave_item_tame n) S'); [apply schedule_old; exact Hin|].
  intros m Hm Hh E. unfold leave_hits in Hh.
  apply andb_true_iff in Hh. destruct Hh as [Hh _]. apply Nat.eqb_eq in Hh.
  rewrite Hh in E. exact (Hc _ E).
Qed.

Lemma vanish_keeps (n : nat) (w : World) (tm : Timer) :
  sane w -> In tm (pending w) ->
  (forall j, cb tm <> AutoClose n j) ->
  In tm (pending (settle (vanish_item n) w)).
Proof.
  intros S Hin Hc.
  apply (settle_keeps _ _ _ _ _ (vanish_item_tame n) S Hin).
  intros m Hm Hh E. unfold vanish_hits in Hh.
  apply andb_true_iff in Hh. destruct Hh as [Hh _]. apply Nat.eqb_eq in Hh.
  rewrite Hh in E. exact (Hc _ E).
Qed.

Lemma removeToast_keeps (i : string) (w : World) (tm : Timer) :
  sane w -> In tm (pending w) ->
  (forall n, cb tm <> AutoClose n i) ->
  In tm (pending (removeToast i w)).
Proof.
  intros S Hin Hc. apply removeToast_pending_in. split; [exact Hin|].
  intros [m [Hm [Hh Hk]]].
  destruct (sane_stored w S m (handle tm) Hm Hk) as [_ Hcb].
  unfold has_id in Hh. apply String.eqb_eq in Hh.
  apply (Hc (inst m)). rewrite <- Hh. apply Hcb; [exact Hin|reflexivity].
Qed.

(** *** A timer that fires *)

Lemma fire_pending_in (tm : Timer) (w : World) (tm' : Timer) :
  In tm' (pending (fire tm w)) ->
  (In tm' (pending w) /\ handle tm' <> handle tm) \/ spawn tm w = Some tm'.
Proof.
  unfold fire, spawn. destruct (cb tm) as [i|n i|n i]; unfold run; intros H.
  - left. apply removeToast_pending_in in H. destruct H as [H _].
    apply dequeue_pending_in. exact H.
  - apply handleClose_pending_in in H. destruct H as [H|H].
    + left. apply dequeue_pending_in. exact H.
    + right. subst tm'. reflexivity.
  - rewrite closeDone_eq in H. apply hideToast_pending_in in H.
    rewrite (settle_clock _ _ _ (vanish_item_tame n)) in H.
    rewrite (settle_next_handle _ _ _ (vanish_item_tame n)) in H.
    destruct H as [H|H].
    + left. apply (settle_pending_in _ _ _ (vanish_item_tame n)) in H.
      destruct H as [H _]. apply dequeue_pending_in. exact H.
    + right. subst tm'. reflexivity.
Qed.

Lemma fire_spawn (t : Z) (tm : Timer) (w : World) (tm' : Timer) :
  sane w -> next_timer t w = Some tm -> spawn tm w = Some tm' ->
  In tm' (pending (fire tm w)).
Proof.
  intros S N. apply next_timer_some in N. destruct N as [Hin [_ Hmin]].
  pose proof (dequeue_sane tm w S Hin Hmin) as D.
  unfold fire, spawn. destruct (cb tm) as [i|n i|n i]; unfold run; intros E.
  - discriminate.
  - inversion E. exact (handleClose_new n i (dequeue tm w) D).
  - inversion E. rewrite closeDone_eq.
    pose proof (hideToast_new i (settle (vanish_item n) (dequeue tm w))
                  (settle_sane _ _ _ _ (vanish_item_tame n) D)) as H.
    rewrite (settle_clock _ _ _ (vanish_item_tame n)) in H.
    rewrite (settle_next_handle _ _ _ (vanish_item_tame n)) in H.
    exact H.
Qed.

(** Every other pending timer stays, except an auto-close timer of the
    instance or identifier the callback is about. *)
Lemma fire_keeps (t : Z) (tm : Timer) (w : World) (tm' : Timer) :
  sane w -> next_timer t w = Some tm ->
  In tm' (pending w) -> tm' <> tm ->
  (forall n i, cb tm' = AutoClose n i -> ~ concerns n i (cb tm)) ->
  In tm' (pending (fire tm w)).
Proof.
  intros S N Hin' Hne Hc.
  pose proof N as N'. apply next_timer_some in N'. destruct N' as [Hin [_ Hmin]].
  pose proof (dequeue_sane tm w S Hin Hmin) as D.
  assert (Hd : In tm' (pending (dequeue tm w))).
  { apply dequeue_pending_in. split; [exact Hin'|].
    intros E. apply Hne. apply (handle_inj (pending w)); [apply S|assumption..]. }
  unfold fire. destruct (cb tm) as [i|n i|n i] eqn:E; unfold run.
  - apply removeToast_keeps; [exact D|exact Hd|].
    intros n E'. apply (Hc n i E'). right. reflexivity.
  - apply handleClose_keeps; [exact D| |exact Hd|].
    + change (next_inst (dequeue tm w)) with (next_inst w).
      apply (sane_owners w S tm n Hin). rewrite E. reflexivity.
    + intros j E'. apply (Hc n j E'). left. reflexivity.
  - rewrite closeDone_eq. apply hideToast_keeps.
    + apply (settle_sane _ _ _ _ (vanish_item_tame n) D).
    + apply vanish_keeps; [exact D|exact Hd|].
      intros j E'. apply (Hc n j E'). left. reflexivity.
    + intros n' E'. apply (Hc n' i E'). right. reflexivity.
Qed.

(** In a sane world the clock reads exactly the due time when a timer runs. *)
Lemma fire_on_time (t : Z) (tm : Timer) (w : World) :
  sane w -> next_timer t w = Some tm -> clock (fire tm w) = due tm.
Proof.
  intros S N. apply next_timer_some in N. destruct N as [Hin _].
  rewrite clock_fire. pose proof (sane_timely w S tm Hin). lia.
Qed.

(** ** Invariants of reachable worlds *)

Lemma in_mark_hidden (i : string) (l : list ToastData) (d : ToastData) :
  In d (mark_hidden i l) -> exists d0, In d0 l /\ d = hide_data i d0.
Proof.
  rewrite mark_hidden_map, in_map_iff. intros [d0 [E H]].
  exists d0. split; [exact H|symmetry; exact E].
Qed.

Lemma in_drop_toast (i : string) (l : list ToastData) (d : ToastData) :
  In d (drop_toast i l) -> In d l /\ id d <> i.
Proof.
  unfold drop_toast. rewrite filter_In, negb_true_iff. intros [H E].
  split; [exact H|]. apply String.eqb_neq. exact E.
Qed.

Lemma hide_data_visible (i : string) (d : ToastData) :
  visible (hide_data i d) = true -> hide_data i d = d /\ id d <> i /\ visible d = true.
Proof.
  unfold hide_data. destruct (String.eqb_spec (id d) i) as [E|E]; simpl.
  - discriminate.
  - intros V. repeat split; assumption.
Qed.

Lemma hide_data_id (i : string) (d : ToastData) : id (hide_data i d) = id d.
Proof. unfold hide_data. destruct (String.eqb (id d) i); reflexivity. Qed.

Lemma hide_data_other (i : string) (d : ToastData) : id d <> i -> hide_data i d = d.
Proof.
  unfold hide_data. destruct (String.eqb_spec (id d) i); [contradiction|reflexivity].
Qed.

Lemma no_stale_hideToast (i : string) (w : World) : no_stale w -> no_stale (hideToast i w).
Proof.
  intros NS d tm Hd Hv Htm. rewrite toasts_hideToast in Hd.
  apply in_mark_hidden in Hd. destruct Hd as [d0 [Hd0 E]]. subst d.
  apply hide_data_visible in Hv. destruct Hv as [E [Hne V]]. rewrite E.
  apply hideToast_pending_in in Htm. destruct Htm as [H|H].
  - apply NS; assumption.
  - subst tm. simpl. intros C. inversion C. congruence.
Qed.

Lemma no_stale_handleClose (n : nat) (i : string) (w : World) :
  no_stale w -> no_stale (handleClose n i w).
Proof.
  intros NS d tm Hd Hv Htm. rewrite toasts_handleClose in Hd.
  apply handleClose_pending_in in Htm. destruct Htm as [H|H].
  - apply NS; assumption.
  - subst tm. simpl. discriminate.
Qed.

Lemma no_stale_showToast (r : string) (o : ToastOptions) (w : World) :
  no_stale w -> fresh (random_id r) w -> no_stale (snd (showToast r o w)).
Proof.
  intros NS [_ Hf] d tm Hd Hv Htm.
  rewrite showToast_pending in Htm. rewrite toasts_showToast in Hd.
  unfold append_toast in Hd.
  apply in_app_or in Htm. apply in_app_or in Hd.
  destruct Htm as [Htm|[Htm|[]]]; [|subst tm; simpl; discriminate].
  destruct Hd as [Hd|[Hd|[]]]; [apply NS; assumption|].
  subst d. simpl. intros C. apply (Hf tm Htm). rewrite C. reflexivity.
Qed.

Lemma no_stale_fire (tm : Timer) (w : World) : no_stale w -> no_stale (fire tm w).
Proof.
  intros NS d tm' Hd Hv Htm.
  apply fire_pending_in in Htm. rewrite toasts_fire in Hd.
  unfold spawn in Htm. destruct (cb tm) as [i|n i|n i].
  - destruct Htm as [[Htm _]|Htm]; [|discriminate].
    apply in_drop_toast in Hd. destruct Hd as [Hd _]. apply NS; assumption.
  - destruct Htm as [[Htm _]|Htm]; [apply NS; assumption|].
    inversion Htm. simpl. discriminate.
  - apply in_mark_hidden in Hd. destruct Hd as [d0 [Hd0 E]]. subst d.
    apply hide_data_visible in Hv. destruct Hv as [E [Hne V]]. rewrite E.
    destruct Htm as [[Htm _]|Htm]; [apply NS; assumption|].
    inversion Htm. simpl. intros C. inversion C. congruence.
Qed.

Lemma closing_hideToast (i : string) (w : World) :
  sane w -> closing_scheduled w -> closing_scheduled (hideToast i w).
Proof.
  intros S CL d Hd Hv. rewrite toasts_hideToast in Hd.
  apply in_mark_hidden in Hd. destruct Hd as [d0 [Hd0 E]]. subst d.
  rewrite hide_data_id. destruct (String.eqb_spec (id d0) i) as [Ei|Ei].
  - eexists. split; [apply hideToast_new; exact S|]. simpl. congruence.
  - rewrite hide_data_other in Hv by exact Ei.
    destruct (CL d0 Hd0 Hv) as [tm [Htm Ec]]. exists tm. split; [|exact Ec].
    apply hideToast_keeps; [exact S|exact Htm|]. intros n C. congruence.
Qed.

Lemma closing_handleClose (n : nat) (i : string) (w : World) :
  sane w -> (n < next_inst w)%nat -> closing_scheduled w ->
  closing_scheduled (handleClose n i w).
Proof.
  intros S Hn CL d Hd Hv. rewrite toasts_handleClose in Hd.
  destruct (CL d Hd Hv) as [tm [Htm Ec]]. exists tm. split; [|exact Ec].
  apply handleClose_keeps; [exact S|exact Hn|exact Htm|]. intros j C. congruence.
Qed.

Lemma closing_showToast (r : string) (o : ToastOptions) (w : World) :
  closing_scheduled w -> closing_scheduled (snd (showToast r o w)).
Proof.
  intros CL d Hd Hv. rewrite toasts_showToast in Hd. unfold append_toast in Hd.
  apply in_app_or in Hd. destruct Hd as [Hd|[Hd|[]]].
  - destruct (CL d Hd Hv) as [tm [Htm Ec]]. exists tm. split; [|exact Ec].
    rewrite showToast_pending. apply in_or_app. left. exact Htm.
  - subst d. discriminate.
Qed.

Lemma closing_fire (t : Z) (tm : Timer) (w : World) :
  sane w -> next_timer t w = Some tm -> closing_scheduled w ->
  closing_scheduled (fire tm w).
Proof.
  intros S N CL d Hd Hv. rewrite toasts_fire in Hd.
  assert (K : forall d0, In d0 (toasts w) -> visible d0 = false ->
                         cb tm <> Cleanup (id d0) ->
                         exists tm', In tm' (pending (fire tm w)) /\ cb tm' = Cleanup (id d0)).
  { intros d0 Hd0 V Hne. destruct (CL d0 Hd0 V) as [tm' [Htm' Ec]].
    exists tm'. split; [|exact Ec].
    apply (fire_keeps t tm w tm' S N Htm').
    - intros C. subst tm'. contradiction.
    - intros n i C. congruence. }
  destruct (cb tm) as [i|n i|n i] eqn:E.
  - apply in_drop_toast in Hd. destruct Hd as [Hd Hne].
    apply K; [exact Hd|exact Hv|]. intros C. inversion C. congruence.
  - apply K; [exact Hd|exact Hv|discriminate].
  - apply in_mark_hidden in Hd. destruct Hd as [d0 [Hd0 Ed]]. subst d.
    rewrite hide_data_id. destruct (String.eqb_spec (id d0) i) as [Ei|Ei].
    + eexists. split.
      * apply (fire_spawn t); [exact S|exact N|]. unfold spawn. rewrite E. reflexivity.
      * simpl. congruence.
    + rewrite hide_data_other in Hv by exact Ei.
      apply K; [exact Hd0|exact Hv|discriminate].
Qed.

Lemma ids_showToast (r : string) (o : ToastOptions) (w : World) :
  ids (snd (showToast r o w)) = ids w ++ [random_id r].
Proof. unfold ids. rewrite toasts_showToast. unfold append_toast. apply map_app. Qed.

Lemma ids_hideToast (i : string) (w : World) : ids (hideToast i w) = ids w.
Proof. unfold ids. rewrite toasts_hideToast. apply mark_hidden_ids. Qed.

Lemma ids_handleClose (n : nat) (i : string) (w : World) : ids (handleClose n i w) = ids w.
Proof. unfold ids. rewrite toasts_handleClose. reflexivity. Qed.

Lemma ids_fire (tm : Timer) (w : World) :
  ids (fire tm w) =
  match cb tm with
  | Cleanup i => filter (fun j => negb (String.eqb j i)) (ids w)
  | _ => ids w
  end.
Proof.
  unfold ids. rewrite toasts_fire. destruct (cb tm) as [i|n i|n i].
  - apply drop_toast_ids.
  - reflexivity.
  - apply mark_hidden_ids.
Qed.

Lemma nodup_showToast (r : string) (o : ToastOptions) (w : World) :
  NoDup (ids w) -> ~ In (random_id r) (ids w) -> NoDup (ids (snd (showToast r o w))).
Proof.
  intros N H. rewrite ids_showToast. apply NoDup_app; [exact N| |].
  - constructor; [intros []|constructor].
  - intros a Ha [E|[]]. subst a. contradiction.
Qed.

Lemma nodup_fire (tm : Timer) (w : World) : NoDup (ids w) -> NoDup (ids (fire tm w)).
Proof.
  intros N. rewrite ids_fire. destruct (cb tm); [apply NoDup_filter| |]; exact N.
Qed.

Lemma nodup_advance (t : Z) (w : World) : NoDup (ids w) -> NoDup (ids (advance t w)).
Proof.
  apply (advance_keeps t (fun w => NoDup (ids w))).
  - intros w' tm N _. apply nodup_fire. exact N.
  - intros w' N _. exact N.
Qed.

Lemma steady_advance (t : Z) (w : World) : steady w -> steady (advance t w).
Proof.
  apply (advance_keeps t steady).
  - intros w' tm [S NS CL N] Hn. split.
    + exact (fire_sane t tm w' S Hn).
    + apply no_stale_fire. exact NS.
    + exact (closing_fire t tm w' S Hn CL).
    + apply nodup_fire. exact N.
  - intros w' [S NS CL N] Hn. split.
    + apply elapse_sane; [exact S|apply next_timer_none; exact Hn].
    + exact NS.
    + exact CL.
    + exact N.
Qed.

Lemma reachable_steady (w : World) : reachable w -> steady w.
Proof.
  induction 1 as [t|w r o R IH F|w i R IH|w m R IH Hm Hv|w t R IH].
  - split.
    + apply init_sane.
    + intros d tm [].
    + intros d [].
    + constructor.
  - destruct IH as [S NS CL N]. split.
    + apply showToast_sane. exact S.
    + apply no_stale_showToast; assumption.
    + apply closing_showToast. exact CL.
    + apply nodup_showToast; [exact N|apply F].
  - destruct IH as [S NS CL N]. split.
    + apply hideToast_sane. exact S.
    + apply no_stale_hideToast. exact NS.
    + apply closing_hideToast; assumption.
    + rewrite ids_hideToast. exact N.
  - destruct IH as [S NS CL N].
    pose proof (sane_insts w S m Hm) as Hn. split.
    + apply handleClose_sane; assumption.
    + apply no_stale_handleClose. exact NS.
    + apply closing_handleClose; assumption.
    + rewrite ids_handleClose. exact N.
  - apply steady_advance. exact IH.
Qed.

(** ** Timelines *)

Lemma state_of_fire_other (i : string) (tm : Timer) (w : World) :
  key (cb tm) <> i -> state_of i (toasts (fire tm w)) = state_of i (toasts w).
Proof.
  intros H. rewrite toasts_fire. destruct (cb tm) as [j|n j|n j]; simpl in H.
  - apply state_of_drop_other. exact H.
  - reflexivity.
  - apply state_of_mark_hidden_other. exact H.
Qed.

Lemma state_of_fire_none (i : string) (tm : Timer) (w : World) :
  state_of i (toasts w) = None -> state_of i (toasts (fire tm w)) = None.
Proof.
  intros H. rewrite toasts_fire. destruct (cb tm) as [j|n j|n j].
  - destruct (String.eqb_spec j i) as [E|E].
    + subst j. apply state_of_drop_same.
    + rewrite state_of_drop_other by exact E. exact H.
  - exact H.
  - destruct (String.eqb_spec j i) as [E|E].
    + subst j. rewrite state_of_mark_hidden_same, H. reflexivity.
    + rewrite state_of_mark_hidden_other by exact E. exact H.
Qed.

Lemma state_of_fire_closing (i : string) (tm : Timer) (w : World) :
  state_of i (toasts w) = Some false -> cb tm <> Cleanup i ->
  state_of i (toasts (fire tm w)) = Some false.
Proof.
  intros H Hne. rewrite toasts_fire. destruct (cb tm) as [j|n j|n j].
  - rewrite state_of_drop_other; [exact H|]. intros E. apply Hne. congruence.
  - exact H.
  - destruct (String.eqb_spec j i) as [E|E].
    + subst j. rewrite state_of_mark_hidden_same, H. reflexivity.
    + rewrite state_of_mark_hidden_other by exact E. exact H.
Qed.

Section Removal.

Variables (i : string) (T t0 t : Z).
Hypothesis grace : T <= t0 + 500.

Lemma on_the_way_out_fire (w : World) (tm : Timer) :
  on_the_way_out i T t0 t w -> next_timer t w = Some tm ->
  on_the_way_out i T t0 t (fire tm w).
Proof.
  intros [S [Lo [Hi Ph]]] N.
  pose proof (fire_on_time t tm w S N) as Ec.
  pose proof N as N'. apply next_timer_some in N'. destruct N' as [Hin [Hdue Hmin]].
  pose proof (sane_timely w S tm Hin) as Ht.
  split; [exact (fire_sane t tm w S N)|].
  split; [lia|]. split; [lia|].
  destruct Ph as [[St [[tm0 [H0 [C0 D0]]] Hall]]|[St Hc]].
  - destruct (cb tm) as [j|n j|n j] eqn:E.
    + destruct (String.eqb_spec j i) as [Ej|Ej].
      * subst j. right. split.
        -- rewrite toasts_fire, E. apply state_of_drop_same.
        -- rewrite Ec. apply Hall; assumption.
      * left. split; [|split].
        -- apply state_of_fire_closing; [exact St|]. rewrite E. congruence.
        -- exists tm0. split; [|split; assumption].
           apply (fire_keeps t tm w tm0 S N H0); [congruence|].
           intros n' j' C. congruence.
        -- intros tm' H' C'. apply fire_pending_in in H'.
           unfold spawn in H'. rewrite E in H'.
           destruct H' as [[H' _]|H']; [apply Hall; assumption|discriminate].
    + left. split; [|split].
      * apply state_of_fire_closing; [exact St|]. rewrite E. discriminate.
      * exists tm0. split; [|split; assumption].
        apply (fire_keeps t tm w tm0 S N H0); [congruence|].
        intros n' j' C. congruence.
      * intros tm' H' C'. apply fire_pending_in in H'.
        unfold spawn in H'. rewrite E in H'.
        destruct H' as [[H' _]|H']; [apply Hall; assumption|].
        inversion H'. subst tm'. discriminate.
    + left. split; [|split].
      * apply state_of_fire_closing; [exact St|]. rewrite E. discriminate.
      * exists tm0. split; [|split; assumption].
        apply (fire_keeps t tm w tm0 S N H0); [congruence|].
        intros n' j' C. congruence.
      * intros tm' H' C'. apply fire_pending_in in H'.
        unfold spawn in H'. rewrite E in H'.
        destruct H' as [[H' _]|H']; [apply Hall; assumption|].
        inversion H'. subst tm'. simpl. lia.
  - right. split; [apply state_of_fire_none; exact St|lia].
Qed.

Lemma removal_run (w : World) :
  sane w -> clock w = t0 -> t0 <= t -> awaiting_removal i T w ->
  (t < T -> state_of i (toasts (advance t w)) = Some false) /\
  (T <= t -> state_of i (toasts (advance t w)) = None).
Proof.
  intros S Ec Ht A.
  destruct (advance_run t (on_the_way_out i T t0 t) on_the_way_out_fire w)
    as [w' [P [N E]]].
  { split; [exact S|]. split; [lia|]. split; [lia|]. left. exact A. }
  rewrite E, toasts_elapse. destruct P as [S' [Lo [Hi Ph]]].
  pose proof (next_timer_none t w' N) as Late.
  destruct Ph as [[St [[tm0 [H0 [C0 D0]]] Hall]]|[St Hc]].
  - split; [intros _; exact St|].
    intros HT. specialize (Late tm0 H0). lia.
  - split; [intros HT; lia|intros _; exact St].
Qed.

End Removal.

Section AutoDismiss.

Variables (n : nat) (i : string) (D t : Z).

Lemma concerns_dec (c : Callback) : {concerns n i c} + {~ concerns n i c}.
Proof.
  unfold concerns. destruct (String.string_dec (key c) i) as [E|E]; [left; right; exact E|].
  destruct (owner c) as [k|].
  - destruct (Nat.eq_dec k n) as [E'|E'].
    + left. left. congruence.
    + right. intros [H|H]; [inversion H; contradiction|contradiction].
  - right. intros [H|H]; [discriminate|contradiction].
Qed.

Lemma concerns_spawn (tm tm' : Timer) (w : World) :
  spawn tm w = Some tm' -> concerns n i (cb tm') -> concerns n i (cb tm).
Proof.
  unfold spawn, concerns. destruct (cb tm) as [j|n' j|n' j]; intros E H.
  - discriminate.
  - inversion E. subst tm'. exact H.
  - inversion E. subst tm'. simpl in *. destruct H as [H|H]; [discriminate|right; exact H].
Qed.

(** A timer that is not about [n] or [i] leaves the sole timer alone. *)
Lemma sole_fire_other (c : Callback) (T : Z) (w : World) (tm : Timer) :
  sane w -> next_timer t w = Some tm -> ~ concerns n i (cb tm) ->
  concerns n i c ->
  (forall n' j', c = AutoClose n' j' -> n' = n /\ j' = i) ->
  sole n i c T w -> sole n i c T (fire tm w).
Proof.
  intros S N Hno Hyes Hc [tm0 [H0 [C0 [D0 Hall]]]].
  exists tm0. split; [|split; [exact C0|split; [exact D0|]]].
  - apply (fire_keeps t tm w tm0 S N H0).
    + intros E. subst tm0. apply Hno. rewrite C0. exact Hyes.
    + intros n' j' E. rewrite C0 in E. destruct (Hc n' j' E) as [En Ej]. subst n' j'.
      exact Hno.
  - intros tm' H' K. apply fire_pending_in in H'.
    destruct H' as [[H' _]|H']; [apply Hall; assumption|].
    exfalso. apply Hno. exact (concerns_spawn tm tm' w H' K).
Qed.

(** The sole timer fires: the timer it sets, if any, is the sole one now. *)
Lemma sole_fire_own (c : Callback) (T : Z) (w : World) (tm : Timer) :
  sane w -> next_timer t w = Some tm -> concerns n i (cb tm) ->
  sole n i c T w ->
  cb tm = c /\ due tm = T /\ clock (fire tm w) = T /\
  forall tm1, spawn tm w = Some tm1 -> sole n i (cb tm1) (due tm1) (fire tm w).
Proof.
  intros S N K [tm0 [H0 [C0 [D0 Hall]]]].
  pose proof N as N'. apply next_timer_some in N'. destruct N' as [Hin _].
  assert (E : tm = tm0) by (apply Hall; assumption). subst tm0.
  split; [exact C0|]. split; [exact D0|].
  split; [rewrite (fire_on_time t tm w S N); exact D0|].
  intros tm1 Sp. exists tm1.
  split; [exact (fire_spawn t tm w tm1 S N Sp)|].
  split; [reflexivity|]. split; [reflexivity|].
  intros tm' H' K'. apply fire_pending_in in H'. destruct H' as [[H' Hne]|H'].
  - exfalso. apply Hne. f_equal. apply Hall; assumption.
  - congruence.
Qed.

Lemma phase_fire (w : World) (tm : Timer) :
  sane w -> next_timer t w = Some tm -> phase n i D w -> phase n i D (fire tm w).
Proof.
  intros S N Ph.
  pose proof N as N'. apply next_timer_some in N'. destruct N' as [Hin _].
  pose proof (sane_timely w S tm Hin) as Ht.
  pose proof (fire_on_time t tm w S N) as Ec.
  destruct (concerns_dec (cb tm)) as [K|K].
  - destruct Ph as [St So|St Hc So|St Hc So|St Hc].
    + destruct (sole_fire_own _ _ w tm S N K So) as [C [Du [Cl Sp]]].
      apply phase_leaving.
      * rewrite toasts_fire, C. exact St.
      * lia.
      * specialize (Sp {| due := Z.max (clock w) (due tm) + 300;
                          handle := next_handle (host w);
                          cb := CloseDone n i |}).
        simpl in Sp. replace (Z.max (clock w) (due tm)) with D in Sp by lia.
        apply Sp. unfold spawn. rewrite C. f_equal. f_equal. lia.
    + destruct (sole_fire_own _ _ w tm S N K So) as [C [Du [Cl Sp]]].
      apply phase_closing.
      * rewrite toasts_fire, C, state_of_mark_hidden_same, St. reflexivity.
      * lia.
      * specialize (Sp {| due := Z.max (clock w) (due tm) + 500;
                          handle := next_handle (host w);
                          cb := Cleanup i |}).
        simpl in Sp.
        replace (Z.max (clock w) (due tm) + 500) with (D + 800) in Sp by lia.
        apply Sp. unfold spawn. rewrite C. f_equal. f_equal. lia.
    + destruct (sole_fire_own _ _ w tm S N K So) as [C [Du [Cl Sp]]].
      apply phase_gone.
      * rewrite toasts_fire, C. apply state_of_drop_same.
      * lia.
    + apply phase_gone; [apply state_of_fire_none; exact St|lia].
  - assert (Hk : key (cb tm) <> i) by (intros E; apply K; right; exact E).
    destruct Ph as [St So|St Hc So|St Hc So|St Hc].
    + apply phase_shown.
      * rewrite state_of_fire_other by exact Hk. exact St.
      * apply sole_fire_other; try assumption.
        -- left. reflexivity.
        -- intros n' j' E. inversion E. split; reflexivity.
    + apply phase_leaving.
      * rewrite state_of_fire_other by exact Hk. exact St.
      * lia.
      * apply sole_fire_other; try assumption.
        -- left. reflexivity.
        -- intros n' j' E. discriminate.
    + apply phase_closing.
      * rewrite state_of_fire_other by exact Hk. exact St.
      * lia.
      * apply sole_fire_other; try assumption.
        -- right. reflexivity.
        -- intros n' j' E. discriminate.
    + apply phase_gone; [apply state_of_fire_none; exact St|lia].
Qed.

Lemma phase_run (w : World) :
  sane w -> clock w <= t -> phase n i D w ->
  (t < D + 300 -> state_of i (toasts (advance t w)) = Some true) /\
  (D + 300 <= t < D + 800 -> state_of i (toasts (advance t w)) = Some false) /\
  (D + 800 <= t -> state_of i (toasts (advance t w)) = None).
Proof.
  intros S Ht Ph.
  destruct (advance_run t (fun w => sane w /\ clock w <= t /\ phase n i D w)) with (w := w)
    as [w' [[S' [Hi Ph']] [N E]]].
  { intros w0 tm [S0 [H0 P0]] N0. split; [exact (fire_sane t tm w0 S0 N0)|].
    split; [|exact (phase_fire w0 tm S0 N0 P0)].
    rewrite (fire_on_time t tm w0 S0 N0).
    apply next_timer_some in N0. apply N0. }
  { split; [exact S|split; [exact Ht|exact Ph]]. }
  rewrite E, toasts_elapse.
  pose proof (next_timer_none t w' N) as Late.
  destruct Ph' as [St [tm0 [H0 [_ [D0 _]]]]|St Hc [tm0 [H0 [_ [D0 _]]]]
                  |St Hc [tm0 [H0 [_ [D0 _]]]]|St Hc];
    try (specialize (Late tm0 H0));
    (split; [intros; try exact St; lia|split; intros; try exact St; lia]).
Qed.

End AutoDismiss.

(** ** Further facts used by the main theorems *)

Lemma state_of_some (i : string) (l : list ToastData) (b : bool) :
  state_of i l = Some b -> exists d, In d l /\ id d = i /\ visible d = b.
Proof.
  unfold state_of. destruct (find (fun toast => String.eqb (id toast) i) l) as [d|] eqn:F;
    [|discriminate].
  simpl. intros E. inversion E. apply find_some in F. destruct F as [Hin Hid].
  exists d. split; [exact Hin|]. split; [apply String.eqb_eq; exact Hid|reflexivity].
Qed.



(** *** The shape of the collection after timers have run *)

Lemma reshape_id (l : list ToastData) :
  reshape (fun _ => true) (fun _ => false) l = l.
Proof.
  unfold reshape. induction l as [|x l IH]; simpl; [reflexivity|]. f_equal. exact IH.
Qed.

Lemma reshape_drop (j : string) (keep hide : string -> bool) (l : list ToastData) :
  drop_toast j (reshape keep hide l) =
  reshape (fun k => keep k && negb (String.eqb k j)) hide l.
Proof.
  unfold reshape, drop_toast. induction l as [|x l IH]; simpl; [reflexivity|].
  destruct (keep (id x)); simpl; [|exact IH].
  assert (E : id (if hide (id x) then hidden x else x) = id x)
    by (destruct (hide (id x)); reflexivity).
  rewrite E. destruct (String.eqb (id x) j); simpl; [exact IH|].
  f_equal. exact IH.
Qed.

Lemma reshape_hide (j : string) (keep hide : string -> bool) (l : list ToastData) :
  mark_hidden j (reshape keep hide l) =
  reshape keep (fun k => hide k || String.eqb k j) l.
Proof.
  unfold reshape, mark_hidden. rewrite map_map. apply map_ext. intros d.
  destruct (hide (id d)); simpl.
  - destruct (String.eqb (id d) j); reflexivity.
  - destruct (String.eqb (id d) j); reflexivity.
Qed.

Lemma advance_reshape (t : Z) (w : World) :
  exists keep hide, toasts (advance t w) = reshape keep hide (toasts w).
Proof.
  destruct (advance_run t
              (fun w' => exists keep hide, toasts w' = reshape keep hide (toasts w)))
    with (w := w) as [w' [[keep [hide E]] [_ Ea]]].
  - intros w' tm [keep [hide E]] _. rewrite toasts_fire, E.
    destruct (cb tm) as [j|n j|n j].
    + eexists. eexists. apply reshape_drop.
    + exists keep, hide. reflexivity.
    + eexists. eexists. apply reshape_hide.
  - eexists. eexists. symmetry. apply reshape_id.
  - exists keep, hide. rewrite Ea, toasts_elapse. exact E.
Qed.

Lemma reshape_ids (keep hide : string -> bool) (l : list ToastData) :
  map id (reshape keep hide l) = filter keep (map id l).
Proof.
  unfold reshape. induction l as [|x l IH]; simpl; [reflexivity|].
  destruct (keep (id x)); simpl; [|exact IH].
  rewrite IH. f_equal. destruct (hide (id x)); reflexivity.
Qed.

Lemma filter_survivors (keep : string -> bool) (l : list string) :
  filter keep l = filter (fun j => existsb (String.eqb j) (filter keep l)) l.
Proof.
  apply filter_ext_in. intros j Hj. destruct (keep j) eqn:K.
  - symmetry. apply existsb_exists. exists j.
    split; [apply filter_In; split; assumption|apply String.eqb_refl].
  - symmetry. apply not_true_is_false. intros H.
    apply existsb_exists in H. destruct H as [k [Hk E]].
    apply String.eqb_eq in E. subst k. apply filter_In in Hk. destruct Hk as [_ Hk].
    congruence.
Qed.

(** A visible record that is dismissed: closing after the render, gone 500 ms
    after the call. *)
Lemma dismiss_run (w : World) (i : string) :
  reachable w ->
  state_of i (toasts w) = Some true ->
  state_of i (toasts (hideToast i w)) = Some false /\
  forall t, clock w <= t ->
    (t < clock w + 500 ->
     state_of i (toasts (advance t (hideToast i w))) = Some false) /\
    (clock w + 500 <= t ->
     state_of i (toasts (advance t (hideToast i w))) = None).
Proof.
  intros R St. destruct (reachable_steady w R) as [S NS _ _].
  assert (St' : state_of i (toasts (hideToast i w)) = Some false).
  { rewrite toasts_hideToast, state_of_mark_hidden_same, St. reflexivity. }
  split; [exact St'|]. intros t Ht.
  apply (removal_run i (clock w + 500) (clock w) t).
  - lia.
  - apply hideToast_sane. exact S.
  - apply clock_hideToast.
  - exact Ht.
  - split; [exact St'|]. split.
    + eexists. split; [apply hideToast_new; exact S|]. split; reflexivity.
    + intros tm Hin C. apply hideToast_pending_in in Hin. destruct Hin as [Hin|Hin].
      * exfalso. apply state_of_some in St. destruct St as [d [Hd [Ei V]]].
        apply (NS d tm Hd V Hin). rewrite Ei. exact C.
      * subst tm. simpl. lia.
Qed.


(** * The main theorems *)

(** C1.  For every identifier absent from the collection, [hideToast]
    returns (it is a total function: nothing is thrown) with the collection
    exactly as it was, so no record was added; and the removal callback it
    has scheduled leaves the collection as it was too. *)
Theorem hideToast_absent_noop (w : World) (i : string) :
  ~ In i (ids w) ->
  toasts (hideToast i w) = toasts w /\
  toasts (run (Cleanup i) (hideToast i w)) = toasts w.
Proof.
  intros H. assert (E : toasts (hideToast i w) = toasts w).
  { rewrite toasts_hideToast. apply mark_hidden_absent. exact H. }
  split; [exact E|].
  unfold run. rewrite toasts_removeToast, E. apply drop_toast_absent. exact H.
Qed.

(** What [showToast] does for every request whose duration is not a
    caller-supplied 0: the identifier is returned, exactly one record is
    appended after the existing ones, visible, with the fields of the
    request, [info] for an omitted variant and 5000 for an omitted
    duration. *)
Lemma showToast_appends_request (r : string) (o : ToastOptions) (w : World) :
  duration o <> Some 0 ->
  fst (showToast r o w) = random_id r /\
  toasts (snd (showToast r o w)) =
  toasts w ++
  [{| options :=
        {| variant := Some (match variant o with Some v => v | None => info end);
           title := title o;
           description := description o;
           duration := Some (match duration o with Some d => d | None => 5000 end);
           action := action o |};
      id := random_id r;
      visible := true |}].
Proof.
  intros H. split; [rewrite showToast_eq; reflexivity|].
  rewrite toasts_showToast. unfold append_toast, new_toast, or_default.
  destruct (variant o) as [v|]; destruct (duration o) as [d|]; simpl; try reflexivity.
  - unfold number_falsy. destruct (Z.eqb_spec d 0) as [E|E]; [subst; contradiction|reflexivity].
  - unfold number_falsy. destruct (Z.eqb_spec d 0) as [E|E]; [subst; contradiction|reflexivity].
Qed.

(** The [Toast] component itself honours a duration of 0: mounted with
    [duration={0}] it sets no auto-close timer (Toast.tsx 87; the story
    NonClosable says so: [duration: 0, // Won't auto-close]). *)
Lemma mount_zero_duration (d : ToastData) (n : nat) (h : Host) :
  duration (options d) = Some 0 ->
  snd (mount d n h) = h /\ autoTimer (fst (mount d n h)) = None.
Proof.
  intros E. unfold mount, autoClose_effect, toast_duration. simpl. rewrite E. simpl.
  unfold visible_effect, set_state. simpl.
  destruct (visible d); simpl; split; reflexivity.
Qed.


(** C4, as amended.  Along every sequence of calls, clicks and waits in
    which each token drawn by [showToast] differs from the identifiers held
    at that moment, the identifiers held are pairwise distinct. *)
Theorem unheld_ids_unique (es : list Event) (w : World) :
  NoDup (ids w) -> unheld es w -> NoDup (ids (exec es w)).
Proof.
  revert w. induction es as [|e es IH]; simpl; intros w N U; [exact N|].
  destruct U as [Ue U]. apply IH; [|exact U].
  destruct e as [r o|i|n i|t]; simpl.
  - apply nodup_showToast; assumption.
  - rewrite ids_hideToast. exact N.
  - rewrite ids_handleClose. exact N.
  - apply nodup_advance. exact N.
Qed.



(** C8.  The collection is kept in insertion order: [showToast] appends at
    the end; [hideToast] and a click on a close button leave the order of
    identifiers as it is; and whatever timers run, the identifiers left are
    the former ones in their former order, restricted to the survivors.  In
    particular, after A then B are shown (with different tokens) the order
    is A, B, and once A has been dismissed and its 500 ms have passed while
    B is still visible, the collection is exactly B's record. *)
Theorem collection_order :
  (forall (w : World) r o, ids (snd (showToast r o w)) = ids w ++ [random_id r]) /\
  (forall (w : World) i, ids (hideToast i w) = ids w) /\
  (forall (w : World) n i, ids (handleClose n i w) = ids w) /\
  (forall (w : World) t,
     ids (advance t w) =
     filter (fun j => existsb (String.eqb j) (ids (advance t w))) (ids w)) /\
  (forall t0 rA oA rB oB,
     random_id rA <> random_id rB ->
     let wAB : World := snd (showToast rB oB (snd (showToast rA oA (init t0)))) in
     let w' := advance (t0 + 500) (hideToast (random_id rA) wAB) in
     ids wAB = [random_id rA; random_id rB] /\
     (state_of (random_id rB) (toasts w') = Some true ->
      toasts w' = [new_toast (random_id rB) oB])).
Proof.
  split; [intros; apply ids_showToast|].
  split; [intros; apply ids_hideToast|].
  split; [intros; apply ids_handleClose|].
  split.
  - intros w t. destruct (advance_reshape t w) as [keep [hide E]].
    unfold ids. rewrite E, reshape_ids. apply filter_survivors.
  - intros t0 rA oA rB oB Hne wAB w'.
    set (a := random_id rA) in *. set (b := random_id rB) in *.
    set (wA := snd (showToast rA oA (init t0))).
    assert (RA : reachable wA).
    { apply reach_show; [apply reach_init|]. split; [intros []|intros tm []]. }
    assert (IA : ids wA = [a]) by (unfold wA; rewrite ids_showToast; reflexivity).
    assert (PA : pending wA = [{| due := t0 + timer_delay (or_default number_falsy (duration oA) 5000);
                                  handle := 0%nat;
                                  cb := AutoClose 0 a |}]).
    { unfold wA. rewrite showToast_pending. reflexivity. }
    assert (RB : reachable wAB).
    { apply (reach_show wA rB oB RA). fold b. split.
      - rewrite IA. intros [H|[]]. apply Hne. exact H.
      - intros tm H. rewrite PA in H. destruct H as [H|[]]. subst tm. simpl. exact Hne. }
    assert (IB : ids wAB = [a; b]).
    { unfold wAB. rewrite ids_showToast. fold wA. rewrite IA. reflexivity. }
    split; [exact IB|]. intros Vb.
    assert (TB : toasts wAB = [new_toast a oA; new_toast b oB]).
    { unfold wAB. rewrite toasts_showToast. fold wA. unfold wA.
      rewrite toasts_showToast. reflexivity. }
    assert (StA : state_of a (toasts wAB) = Some true).
    { rewrite TB. unfold state_of. simpl. rewrite String.eqb_refl. reflexivity. }
    assert (CB : clock wAB = t0).
    { unfold wAB. rewrite clock_showToast. fold wA. unfold wA.
      rewrite clock_showToast. reflexivity. }
    destruct (dismiss_run wAB a RB StA) as [_ Tl].
    destruct (Tl (t0 + 500)) as [_ Gone]; [lia|].
    rewrite CB in Gone. specialize (Gone (Z.le_refl _)). fold w' in Gone.
    destruct (advance_reshape (t0 + 500) (hideToast a wAB)) as [keep [hide E]].
    fold w' in E. rewrite toasts_hideToast, TB in E.
    assert (Eab : String.eqb a b = false) by (apply String.eqb_neq; exact Hne).
    assert (Eba : String.eqb b a = false) by (apply String.eqb_neq; congruence).
    rewrite E in Gone, Vb |- *. clear E.
    unfold reshape, mark_hidden, state_of in *. simpl in *.
    rewrite String.eqb_refl, Eba in *. simpl in *.
    destruct (keep a); simpl in *.
    + destruct (hide a); simpl in *; rewrite String.eqb_refl in Gone; discriminate.
    + destruct (keep b); simpl in *; [|discriminate].
      destruct (hide b); simpl in *; rewrite String.eqb_refl in Vb; simpl in Vb;
        [discriminate|reflexivity].
Qed.

(** C9.  When [hideToast] returns, the collection has the length it had,
    and position by position every record has the options (variant, title,
    description, duration, action) and the identifier it had; a record with
    another identifier is the very same record, a record with the given
    identifier differs at most in being marked closing. *)
Theorem hideToast_frame (w : World) (i : string) :
  List.length (toasts (hideToast i w)) = List.length (toasts w) /\
  Forall2 (fun d d' : ToastData =>
             options d' = options d /\ id d' = id d /\
             (id d <> i -> d' = d) /\
             (id d = i -> visible d' = false))
          (toasts w) (toasts (hideToast i w)).
Proof.
  rewrite toasts_hideToast. unfold mark_hidden. split; [apply length_map|].
  induction (toasts w) as [|d l IH]; simpl; constructor; [|exact IH].
  destruct (String.eqb_spec (id d) i) as [E|E]; simpl.
  - repeat split; [intros H; contradiction].
  - repeat split; [intros H; contradiction].
Qed.

(** C10.  [useToast] with no provider in scope throws an [Error] with the
    message 'useToast must be used within a ToastProvider'; below a
    [ToastProvider] it returns the provider's value, whose two members are
    [showToast] and [hideToast]. *)
Theorem useToast_outcome :
  useToast [] = Throws _ "useToast must be used within a ToastProvider" /\
  forall outer,
    useToast (inside_provider outer) = Returns _ provider_value /\
    ctx_showToast provider_value = showToast /\
    ctx_hideToast provider_value = hideToast.
Proof.
  split; [reflexivity|]. intros outer. repeat split.
Qed.

(** * Further properties of the provider and the component *)

(** ** Definitions *)

(** What [Toast] returns (Toast.tsx 106-117): [null] while [isVisible] is
    false, else the alert, with class [animate-fadeOut] while leaving and
    [animate-fadeIn] otherwise. *)
Inductive Rendering : Type := Nothing | FadeIn | FadeOut.

Definition render_toast (m : Mounted) : Rendering :=
  if isVisible m then (if isLeaving m then FadeOut else FadeIn) else Nothing.

(** Every pending auto-close timer is the one held by the effect cleanup of
    a mounted instance that is shown and not leaving. *)
Definition armed (w : World) : Prop :=
  forall tm n j, In tm (pending w) -> cb tm = AutoClose n j ->
  exists m, In m (items w) /\ inst m = n /\ id (data m) = j /\
            autoTimer m = Some (handle tm) /\
            visible (data m) = true /\ isVisible m = true /\ isLeaving m = false.

(** The 300 ms callback of an instance closes over the identifier of that
    instance's record. *)
Definition owned (w : World) : Prop :=
  forall tm n k m, In tm (pending w) -> cb tm = CloseDone n k ->
                   In m (items w) -> inst m = n -> id (data m) = k.

(** A record marked closing is not on screen. *)
Definition synced (w : World) : Prop :=
  forall m, In m (items w) -> visible (data m) = false -> isVisible m = false.

(** Some timer is pending for every record held. *)
Definition doomed (w : World) : Prop :=
  forall d, In d (toasts w) -> exists tm, In tm (pending w) /\ key (cb tm) = id d.

Record tidy (w : World) : Prop := {
  tidy_armed : armed w;
  tidy_insts : NoDup (map inst (items w));
  tidy_owned : owned w;
  tidy_synced : synced w;
  tidy_doomed : doomed w
}.

(** While a record is visible and its instance is not leaving, the only
    timer about them is the instance's own auto-close timer. *)
Definition pristine (w : World) : Prop :=
  forall m tm, In m (items w) -> visible (data m) = true -> isLeaving m = false ->
               In tm (pending w) -> concerns (inst m) (id (data m)) (cb tm) ->
               autoTimer m = Some (handle tm).

(** How long after a callback is due the last timer it leads to is due:
    auto-close, 300 ms, close-done, 500 ms, cleanup. *)
Definition slack (c : Callback) : Z :=
  match c with
  | AutoClose _ _ => 800
  | CloseDone _ _ => 500
  | Cleanup _ => 0
  end.

(** The time by which everything now pending, and everything it leads to,
    has run. *)
Definition horizon (w : World) : Z :=
  fold_right (fun tm acc => Z.max (due tm + slack (cb tm)) acc) (clock w) (pending w).

Definition is_show (e : Event) : bool :=
  match e with
  | Show _ _ => true
  | _ => false
  end.

(** ** The traversal steps, record by record *)

Lemma hide_item_fst (i : string) (m : Mounted) :
  fst (hide_item i m idle) =
  if has_id i m
  then {| data := hidden (data m); inst := inst m;
          isVisible := if visible (data m) then false else isVisible m;
          isLeaving := isLeaving m;
          autoTimer := if hide_hits i m then None else autoTimer m |}
  else m.
Proof.
  unfold hide_item, hide_hits, has_id, visible_effect, set_state, autoClose_effect.
  destruct m as [d n v l k]. simpl.
  destruct (String.eqb (id d) i); [|reflexivity]. simpl.
  destruct (visible d); [|reflexivity]. simpl.
  destruct v; simpl; [|rewrite Bool.eqb_reflx; reflexivity].
  rewrite andb_false_r. reflexivity.
Qed.

Lemma leave_item_fst (n : nat) (m : Mounted) :
  fst (leave_item n m idle) =
  if Nat.eqb (inst m) n
  then {| data := data m; inst := inst m; isVisible := isVisible m; isLeaving := true;
          autoTimer := if leave_hits n m then None else autoTimer m |}
  else m.
Proof.
  unfold leave_item, leave_hits, set_state, autoClose_effect.
  destruct m as [d k v l a]. simpl.
  destruct (Nat.eqb k n); [|reflexivity]. rewrite Bool.eqb_reflx. simpl.
  destruct l; simpl; [reflexivity|]. rewrite andb_false_r. reflexivity.
Qed.

Lemma vanish_item_fst (n : nat) (m : Mounted) :
  fst (vanish_item n m idle) =
  if Nat.eqb (inst m) n
  then {| data := data m; inst := inst m; isVisible := false; isLeaving := isLeaving m;
          autoTimer := if vanish_hits n m then None else autoTimer m |}
  else m.
Proof.
  unfold vanish_item, vanish_hits, set_state, autoClose_effect.
  destruct m as [d k v l a]. simpl.
  destruct (Nat.eqb k n); [|reflexivity]. rewrite Bool.eqb_reflx, andb_true_r. simpl.
  destruct v; simpl; [|reflexivity]. rewrite andb_false_r. reflexivity.
Qed.

(** A traversal step leaves alone every instance that is shown, not
    leaving, and not selected for cleanup. *)
Definition gentle (f : Mounted -> Host -> Mounted * Host) (c : Mounted -> bool) : Prop :=
  forall m, c m = false -> visible (data m) = true -> isVisible m = true ->
            isLeaving m = false -> fst (f m idle) = m.

Lemma hide_item_gentle (i : string) : gentle (hide_item i) (hide_hits i).
Proof.
  intros m C V S L. rewrite hide_item_fst. unfold hide_hits in C.
  rewrite V, S, !andb_true_r in C. rewrite C. reflexivity.
Qed.

Lemma leave_item_gentle (n : nat) : gentle (leave_item n) (leave_hits n).
Proof.
  intros m C V S L. rewrite leave_item_fst. unfold leave_hits in C.
  rewrite L, andb_true_r in C. rewrite C. reflexivity.
Qed.

Lemma vanish_item_gentle (n : nat) : gentle (vanish_item n) (vanish_hits n).
Proof.
  intros m C V S L. rewrite vanish_item_fst. unfold vanish_hits in C.
  rewrite S, andb_true_r in C. rewrite C. reflexivity.
Qed.

Lemma settle_items (f : Mounted -> Host -> Mounted * Host) (c : Mounted -> bool)
      (g : ToastData -> ToastData) (w : World) (m' : Mounted) :
  tame f c g ->
  (In m' (items (settle f w)) <-> exists m, In m (items w) /\ m' = fst (f m idle)).
Proof.
  intros Hf. rewrite (settle_tame f c g Hf). simpl. rewrite in_map_iff.
  split; intros [m [A B]]; exists m; [split; [exact B|symmetry; exact A]
                                     |split; [symmetry; exact B|exact A]].
Qed.

Lemma schedule_pending_in (c : Callback) (d : number) (w : World) (tm : Timer) :
  In tm (pending (schedule c d w)) ->
  In tm (pending w) \/
  tm = {| due := clock w + timer_delay d; handle := next_handle (host w); cb := c |}.
Proof.
  rewrite schedule_pending. intros H. apply in_app_or in H.
  destruct H as [H|[H|[]]]; [left; exact H|right; symmetry; exact H].
Qed.

(** ** Auto-close timers belong to mounted, shown instances *)

Lemma armed_schedule (c : Callback) (d : number) (w : World) :
  armed w -> (forall n j, c <> AutoClose n j) -> armed (schedule c d w).
Proof.
  intros A Hc tm n j Hin E. apply schedule_pending_in in Hin.
  destruct Hin as [Hin|Hin].
  - exact (A tm n j Hin E).
  - subst tm. simpl in E. exfalso. exact (Hc n j E).
Qed.

Lemma armed_settle (f : Mounted -> Host -> Mounted * Host) (c : Mounted -> bool)
      (g : ToastData -> ToastData) (w : World) :
  tame f c g -> gentle f c -> armed w -> armed (settle f w).
Proof.
  intros Hf Hg A tm n j Hin E.
  apply (settle_pending_in f c g Hf) in Hin. destruct Hin as [Hin Hkeep].
  destruct (A tm n j Hin E) as [m [Hm [En [Ej [Ek [V [S L]]]]]]].
  destruct (c m) eqn:C.
  - exfalso. apply Hkeep. exists m. repeat split; assumption.
  - exists m. split; [|repeat split; assumption].
    apply (settle_items f c g w m Hf). exists m. split; [exact Hm|].
    symmetry. apply Hg; assumption.
Qed.

Lemma armed_removeToast (i : string) (w : World) : armed w -> armed (removeToast i w).
Proof.
  intros A tm n j Hin E. apply removeToast_pending_in in Hin.
  destruct Hin as [Hin Hkeep].
  destruct (A tm n j Hin E) as [m [Hm [En [Ej [Ek [V [S L]]]]]]].
  exists m. split; [|repeat split; assumption].
  rewrite removeToast_items. apply filter_In. split; [exact Hm|].
  destruct (has_id i m) eqn:H; [|reflexivity].
  exfalso. apply Hkeep. exists m. repeat split; assumption.
Qed.

Lemma armed_dequeue (tm : Timer) (w : World) : armed w -> armed (dequeue tm w).
Proof.
  intros A tm' n j Hin E. apply dequeue_pending_in in Hin. destruct Hin as [Hin _].
  exact (A tm' n j Hin E).
Qed.

Lemma armed_hideToast (i : string) (w : World) : armed w -> armed (hideToast i w).
Proof.
  intros A. rewrite hideToast_eq.
  apply (armed_settle _ _ _ _ (hide_item_tame i) (hide_item_gentle i)).
  apply armed_schedule; [exact A|discriminate].
Qed.

Lemma armed_handleClose (n : nat) (i : string) (w : World) :
  armed w -> armed (handleClose n i w).
Proof.
  intros A. rewrite handleClose_eq.
  apply (armed_settle _ _ _ _ (leave_item_tame n) (leave_item_gentle n)).
  apply armed_schedule; [exact A|discriminate].
Qed.

Lemma armed_closeDone (n : nat) (i : string) (w : World) :
  armed w -> armed (closeDone n i w).
Proof.
  intros A. rewrite closeDone_eq. apply armed_hideToast.
  apply (armed_settle _ _ _ _ (vanish_item_tame n) (vanish_item_gentle n)). exact A.
Qed.

Lemma armed_fire (tm : Timer) (w : World) : armed w -> armed (fire tm w).
Proof.
  intros A. apply (armed_dequeue tm) in A. unfold fire.
  destruct (cb tm) as [i|n i|n i]; unfold run.
  - apply armed_removeToast. exact A.
  - apply armed_handleClose. exact A.
  - apply armed_closeDone. exact A.
Qed.

Lemma showToast_items (r : string) (o : ToastOptions) (w : World) :
  items (snd (showToast r o w)) = items w ++ [shown (random_id r) o w].
Proof. rewrite showToast_world. reflexivity. Qed.

Lemma armed_showToast (r : string) (o : ToastOptions) (w : World) :
  armed w -> armed (snd (showToast r o w)).
Proof.
  intros A tm n j Hin E. rewrite showToast_pending in Hin. rewrite showToast_items.
  apply in_app_or in Hin. destruct Hin as [Hin|[Hin|[]]].
  - destruct (A tm n j Hin E) as [m [Hm P]]. exists m.
    split; [apply in_or_app; left; exact Hm|exact P].
  - subst tm. simpl in E. inversion E. subst n j.
    exists (shown (random_id r) o w).
    split; [apply in_or_app; right; left; reflexivity|]. repeat split.
Qed.

(** ** Instances are numbered apart *)

Lemma inst_inj (l : list Mounted) (a b : Mounted) :
  NoDup (map inst l) -> In a l -> In b l -> inst a = inst b -> a = b.
Proof.
  intros N. induction l as [|x l IH]; intros Ha Hb E; [destruct Ha|].
  simpl in N. apply NoDup_cons_iff in N. destruct N as [Hx Hl].
  destruct Ha as [Ha|Ha]; destruct Hb as [Hb|Hb].
  - congruence.
  - subst x. exfalso. apply Hx. rewrite E. apply in_map. exact Hb.
  - subst x. exfalso. apply Hx. rewrite <- E. apply in_map. exact Ha.
  - exact (IH Hl Ha Hb E).
Qed.

Lemma insts_settle (f : Mounted -> Host -> Mounted * Host) (c : Mounted -> bool)
      (g : ToastData -> ToastData) (w : World) :
  tame f c g -> map inst (items (settle f w)) = map inst (items w).
Proof.
  intros Hf. rewrite (settle_tame f c g Hf). simpl. rewrite map_map.
  apply map_ext. intros m. apply (tame_inst _ _ _ Hf).
Qed.

Lemma insts_hideToast (i : string) (w : World) :
  map inst (items (hideToast i w)) = map inst (items w).
Proof. rewrite hideToast_eq, (insts_settle _ _ _ _ (hide_item_tame i)). reflexivity. Qed.

Lemma insts_handleClose (n : nat) (i : string) (w : World) :
  map inst (items (handleClose n i w)) = map inst (items w).
Proof. rewrite handleClose_eq, (insts_settle _ _ _ _ (leave_item_tame n)). reflexivity. Qed.

Lemma insts_closeDone (n : nat) (i : string) (w : World) :
  map inst (items (closeDone n i w)) = map inst (items w).
Proof.
  rewrite closeDone_eq, insts_hideToast. apply (insts_settle _ _ _ _ (vanish_item_tame n)).
Qed.

Lemma insts_unmount (p : Mounted -> bool) (l : list Mounted) :
  NoDup (map inst l) -> NoDup (map inst (filter p l)).
Proof.
  intros N. induction l as [|m l IH]; simpl; [constructor|].
  simpl in N. apply NoDup_cons_iff in N. destruct N as [Hm Hl].
  destruct (p m); simpl; [|exact (IH Hl)].
  apply NoDup_cons_iff. split; [|exact (IH Hl)].
  rewrite in_map_iff. intros [m' [E H]]. apply filter_In in H.
  apply Hm. rewrite in_map_iff. exists m'. split; [exact E|apply H].
Qed.

Lemma insts_fire (tm : Timer) (w : World) :
  NoDup (map inst (items w)) -> NoDup (map inst (items (fire tm w))).
Proof.
  intros N. unfold fire. destruct (cb tm) as [i|n i|n i]; unfold run.
  - rewrite removeToast_items. apply insts_unmount. exact N.
  - rewrite insts_handleClose. exact N.
  - rewrite insts_closeDone. exact N.
Qed.

Lemma insts_showToast (r : string) (o : ToastOptions) (w : World) :
  sane w -> NoDup (map inst (items w)) -> NoDup (map inst (items (snd (showToast r o w)))).
Proof.
  intros S N. rewrite showToast_items, map_app. apply NoDup_app; [exact N| |].
  - simpl. constructor; [intros []|constructor].
  - intros k Hk [E|[]]. simpl in E. subst k.
    apply in_map_iff in Hk. destruct Hk as [m [E Hm]].
    pose proof (sane_insts w S m Hm). lia.
Qed.

(** ** The close-done callback is about its instance's record *)

Lemma owned_schedule (c : Callback) (d : number) (w : World) :
  owned w ->
  (forall n k m, c = CloseDone n k -> In m (items w) -> inst m = n -> id (data m) = k) ->
  owned (schedule c d w).
Proof.
  intros O Hc tm n k m Hin E Hm En. apply schedule_pending_in in Hin.
  destruct Hin as [Hin|Hin].
  - exact (O tm n k m Hin E Hm En).
  - subst tm. simpl in E. exact (Hc n k m E Hm En).
Qed.

Lemma owned_settle (f : Mounted -> Host -> Mounted * Host) (c : Mounted -> bool)
      (g : ToastData -> ToastData) (w : World) :
  tame f c g -> owned w -> owned (settle f w).
Proof.
  intros Hf O tm n k m' Hin E Hm' En.
  apply (settle_pending_in f c g Hf) in Hin. destruct Hin as [Hin _].
  destruct (settle_items_in f c g Hf w m' Hm') as [m [Hm [Ei [Ed _]]]].
  rewrite Ed, (tame_id _ _ _ Hf). apply (O tm n k m Hin E Hm). congruence.
Qed.

Lemma owned_hideToast (i : string) (w : World) : owned w -> owned (hideToast i w).
Proof.
  intros O. rewrite hideToast_eq. apply (owned_settle _ _ _ _ (hide_item_tame i)).
  apply owned_schedule; [exact O|discriminate].
Qed.

Lemma owned_handleClose (n : nat) (i : string) (w : World) :
  owned w -> (forall m, In m (items w) -> inst m = n -> id (data m) = i) ->
  owned (handleClose n i w).
Proof.
  intros O H. rewrite handleClose_eq. apply (owned_settle _ _ _ _ (leave_item_tame n)).
  apply owned_schedule; [exact O|].
  intros n' k m E Hm En. injection E as E1 E2. rewrite <- E2.
  apply (H m Hm). congruence.
Qed.

Lemma owned_closeDone (n : nat) (i : string) (w : World) : owned w -> owned (closeDone n i w).
Proof.
  intros O. rewrite closeDone_eq. apply owned_hideToast.
  apply (owned_settle _ _ _ _ (vanish_item_tame n)). exact O.
Qed.

(** The record of the instance an auto-close timer belongs to. *)
Lemma armed_instance (w : World) (tm : Timer) (n : nat) (j : string) :
  armed w -> NoDup (map inst (items w)) ->
  In tm (pending w) -> cb tm = AutoClose n j ->
  forall m, In m (items w) -> inst m = n -> id (data m) = j.
Proof.
  intros A N Hin E m Hm En.
  destruct (A tm n j Hin E) as [m0 [Hm0 [En0 [Ej0 _]]]].
  assert (m = m0) by (apply (inst_inj (items w)); [exact N|exact Hm|exact Hm0|congruence]).
  subst m0. exact Ej0.
Qed.

Lemma owned_fire (tm : Timer) (w : World) :
  armed w -> NoDup (map inst (items w)) -> In tm (pending w) ->
  owned w -> owned (fire tm w).
Proof.
  intros A N Hin O.
  assert (Od : owned (dequeue tm w)).
  { intros tm' n k m H' E Hm En. apply dequeue_pending_in in H'. destruct H' as [H' _].
    exact (O tm' n k m H' E Hm En). }
  unfold fire. destruct (cb tm) as [i|n i|n i] eqn:E; unfold run.
  - intros tm' n k m H' E' Hm En. apply removeToast_pending_in in H'. destruct H' as [H' _].
    rewrite removeToast_items in Hm. apply filter_In in Hm. destruct Hm as [Hm _].
    exact (Od tm' n k m H' E' Hm En).
  - apply owned_handleClose; [exact Od|].
    intros m Hm En. exact (armed_instance w tm n i A N Hin E m Hm En).
  - apply owned_closeDone. exact Od.
Qed.

Lemma owned_showToast (r : string) (o : ToastOptions) (w : World) :
  sane w -> owned w -> owned (snd (showToast r o w)).
Proof.
  intros S O tm n k m Hin E Hm En.
  rewrite showToast_pending in Hin. rewrite showToast_items in Hm.
  apply in_app_or in Hin. destruct Hin as [Hin|[Hin|[]]]; [|subst tm; discriminate].
  apply in_app_or in Hm. destruct Hm as [Hm|[Hm|[]]].
  - exact (O tm n k m Hin E Hm En).
  - subst m. simpl in En. exfalso.
    assert (Ho : owner (cb tm) = Some n) by (rewrite E; reflexivity).
    pose proof (sane_owners w S tm n Hin Ho). lia.
Qed.

(** ** A closing record is off screen *)

Lemma synced_settle (f : Mounted -> Host -> Mounted * Host) (c : Mounted -> bool)
      (g : ToastData -> ToastData) (w : World) :
  tame f c g ->
  (forall m, visible (data (fst (f m idle))) = false ->
             isVisible (fst (f m idle)) = true ->
             visible (data m) = false /\ isVisible m = true) ->
  synced w -> synced (settle f w).
Proof.
  intros Hf Hd Sy m' Hm' V.
  apply (settle_items f c g w m' Hf) in Hm'. destruct Hm' as [m [Hm E]]. subst m'.
  destruct (isVisible (fst (f m idle))) eqn:S; [|reflexivity].
  destruct (Hd m V S) as [V0 S0]. rewrite (Sy m Hm V0) in S0. discriminate.
Qed.

Lemma synced_hideToast (i : string) (w : World) : synced w -> synced (hideToast i w).
Proof.
  intros Sy. rewrite hideToast_eq. apply (synced_settle _ _ _ _ (hide_item_tame i)); [|exact Sy].
  intros m. rewrite hide_item_fst. destruct (has_id i m); simpl.
  - destruct (visible (data m)); [discriminate|]. intros _ S. split; [reflexivity|exact S].
  - intros V S. split; assumption.
Qed.

Lemma synced_handleClose (n : nat) (i : string) (w : World) :
  synced w -> synced (handleClose n i w).
Proof.
  intros Sy. rewrite handleClose_eq.
  apply (synced_settle _ _ _ _ (leave_item_tame n)); [|exact Sy].
  intros m. rewrite leave_item_fst. destruct (Nat.eqb (inst m) n); simpl;
    intros V S; split; assumption.
Qed.

Lemma synced_closeDone (n : nat) (i : string) (w : World) :
  synced w -> synced (closeDone n i w).
Proof.
  intros Sy. rewrite closeDone_eq. apply synced_hideToast.
  apply (synced_settle _ _ _ _ (vanish_item_tame n)); [|exact Sy].
  intros m. rewrite vanish_item_fst. destruct (Nat.eqb (inst m) n); simpl.
  - discriminate.
  - intros V S. split; assumption.
Qed.

Lemma synced_fire (tm : Timer) (w : World) : synced w -> synced (fire tm w).
Proof.
  intros Sy. unfold fire. destruct (cb tm) as [i|n i|n i]; unfold run.
  - intros m Hm V. rewrite removeToast_items in Hm. apply filter_In in Hm.
    destruct Hm as [Hm _]. exact (Sy m Hm V).
  - apply synced_handleClose. exact Sy.
  - apply synced_closeDone. exact Sy.
Qed.

Lemma synced_showToast (r : string) (o : ToastOptions) (w : World) :
  synced w -> synced (snd (showToast r o w)).
Proof.
  intros Sy m Hm V. rewrite showToast_items in Hm.
  apply in_app_or in Hm. destruct Hm as [Hm|[Hm|[]]]; [exact (Sy m Hm V)|].
  subst m. discriminate.
Qed.

(** ** Every record held has a timer pending *)

Lemma doomed_showToast (r : string) (o : ToastOptions) (w : World) :
  doomed w -> doomed (snd (showToast r o w)).
Proof.
  intros D d Hd. rewrite toasts_showToast in Hd. unfold append_toast in Hd.
  rewrite showToast_pending. apply in_app_or in Hd. destruct Hd as [Hd|[Hd|[]]].
  - destruct (D d Hd) as [tm [Hin K]]. exists tm.
    split; [apply in_or_app; left; exact Hin|exact K].
  - subst d. eexists. split; [apply in_or_app; right; left; reflexivity|reflexivity].
Qed.

Lemma doomed_hideToast (i : string) (w : World) :
  sane w -> doomed w -> doomed (hideToast i w).
Proof.
  intros S D d' Hd'. rewrite toasts_hideToast in Hd'.
  apply in_mark_hidden in Hd'. destruct Hd' as [d [Hd E]]. subst d'.
  rewrite hide_data_id. destruct (String.string_dec (id d) i) as [Ei|Ei].
  - eexists. split; [apply hideToast_new; exact S|]. simpl. congruence.
  - destruct (D d Hd) as [tm [Hin K]]. exists tm. split; [|exact K].
    apply hideToast_keeps; [exact S|exact Hin|].
    intros n C. rewrite C in K. simpl in K. congruence.
Qed.

Lemma doomed_handleClose (n : nat) (i : string) (w : World) :
  sane w -> armed w -> (n < next_inst w)%nat ->
  (forall m, In m (items w) -> inst m = n -> id (data m) = i) ->
  doomed w -> doomed (handleClose n i w).
Proof.
  intros S A Hn Hi D d Hd. rewrite toasts_handleClose in Hd.
  destruct (D d Hd) as [tm [Hin K]].
  destruct (cb tm) as [j|n' j|n' j] eqn:E.
  - exists tm. split; [|rewrite E; exact K].
    apply handleClose_keeps; try assumption. intros k C. congruence.
  - destruct (Nat.eq_dec n' n) as [En|En].
    + subst n'. destruct (A tm n j Hin E) as [m [Hm [Em [Ej _]]]].
      assert (Eji : j = i) by (rewrite <- Ej; apply Hi; assumption).
      eexists. split; [apply handleClose_new; exact S|]. simpl in *. congruence.
    + exists tm. split; [|rewrite E; exact K].
      apply handleClose_keeps; try assumption. intros k C. congruence.
  - exists tm. split; [|rewrite E; exact K].
    apply handleClose_keeps; try assumption. intros k C. congruence.
Qed.

(** A timer that fires leaves every other timer pending, except timers
    made for the same identifier. *)
Lemma fire_successor (t : Z) (tm tm' : Timer) (w : World) :
  sane w -> armed w -> NoDup (map inst (items w)) -> owned w ->
  next_timer t w = Some tm -> In tm' (pending w) ->
  In tm' (pending (fire tm w)) \/ key (cb tm) = key (cb tm').
Proof.
  intros S A N O Nx Hin'.
  pose proof Nx as Nx'. apply next_timer_some in Nx'. destruct Nx' as [Hin _].
  destruct (Nat.eq_dec (handle tm') (handle tm)) as [Eh|Eh].
  { right. f_equal. f_equal. symmetry.
    apply (handle_inj (pending w)); [apply S|assumption..]. }
  assert (Hne : tm' <> tm) by congruence.
  destruct (cb tm') as [j'|n' j'|n' j'] eqn:E'.
  - left. apply (fire_keeps t tm w tm' S Nx Hin' Hne). intros n0 j0 C. congruence.
  - destruct (concerns_dec n' j' (cb tm)) as [K|K].
    + right. simpl. destruct K as [K|K]; [|exact K].
      destruct (A tm' n' j' Hin' E') as [m [Hm [En [Ej _]]]].
      destruct (cb tm) as [k|n0 k|n0 k] eqn:E; simpl in K; [discriminate| |].
      * injection K as K. subst n0. simpl. rewrite <- Ej.
        symmetry. exact (armed_instance w tm n' k A N Hin E m Hm En).
      * injection K as K. subst n0. simpl. rewrite <- Ej.
        symmetry. exact (O tm n' k m Hin E Hm En).
    + left. apply (fire_keeps t tm w tm' S Nx Hin' Hne).
      intros n0 j0 C. rewrite E' in C. injection C as C1 C2. subst n0 j0. exact K.
  - left. apply (fire_keeps t tm w tm' S Nx Hin' Hne). intros n0 j0 C. congruence.
Qed.

(** The timer set by a firing timer is made for the same identifier. *)
Lemma fire_heir (t : Z) (tm : Timer) (w : World) :
  sane w -> next_timer t w = Some tm ->
  (exists j, cb tm = Cleanup j) \/
  exists tm', In tm' (pending (fire tm w)) /\ key (cb tm') = key (cb tm).
Proof.
  intros S Nx. destruct (cb tm) as [j|n j|n j] eqn:E.
  - left. exists j. reflexivity.
  - right. eexists. split.
    + apply (fire_spawn t tm w _ S Nx). unfold spawn. rewrite E. reflexivity.
    + reflexivity.
  - right. eexists. split.
    + apply (fire_spawn t tm w _ S Nx). unfold spawn. rewrite E. reflexivity.
    + reflexivity.
Qed.

Lemma toasts_fire_origin (tm : Timer) (w : World) (d' : ToastData) :
  In d' (toasts (fire tm w)) ->
  exists d, In d (toasts w) /\ id d' = id d /\ forall j, cb tm = Cleanup j -> id d <> j.
Proof.
  rewrite toasts_fire. destruct (cb tm) as [j|n j|n j]; intros H.
  - apply in_drop_toast in H. destruct H as [H Hne]. exists d'.
    split; [exact H|]. split; [reflexivity|]. intros k E. congruence.
  - exists d'. split; [exact H|]. split; [reflexivity|]. intros k E. discriminate.
  - apply in_mark_hidden in H. destruct H as [d [Hd E]]. exists d.
    split; [exact Hd|]. split; [rewrite E; apply hide_data_id|]. intros k C. discriminate.
Qed.

Lemma doomed_fire (t : Z) (tm : Timer) (w : World) :
  sane w -> armed w -> NoDup (map inst (items w)) -> owned w ->
  next_timer t w = Some tm -> doomed w -> doomed (fire tm w).
Proof.
  intros S A N O Nx D d' Hd'.
  destruct (toasts_fire_origin tm w d' Hd') as [d [Hd [Ei Hc]]]. rewrite Ei.
  destruct (D d Hd) as [tm0 [H0 K0]].
  destruct (fire_successor t tm tm0 w S A N O Nx H0) as [H|H].
  - exists tm0. split; assumption.
  - destruct (fire_heir t tm w S Nx) as [[j E]|[tm' [H' K']]].
    + exfalso. apply (Hc j E). rewrite E in H. simpl in H. congruence.
    + exists tm'. split; [exact H'|congruence].
Qed.

(** ** Reachable worlds are tidy *)

Lemma tidy_fire (t : Z) (tm : Timer) (w : World) :
  sane w -> next_timer t w = Some tm -> tidy w -> tidy (fire tm w).
Proof.
  intros S Nx [A N O Sy D].
  pose proof Nx as Nx'. apply next_timer_some in Nx'. destruct Nx' as [Hin _].
  split.
  - apply armed_fire. exact A.
  - apply insts_fire. exact N.
  - apply owned_fire; assumption.
  - apply synced_fire. exact Sy.
  - exact (doomed_fire t tm w S A N O Nx D).
Qed.

Lemma tidy_advance (t : Z) (w : World) : sane w -> tidy w -> sane (advance t w) /\ tidy (advance t w).
Proof.
  intros S T.
  apply (advance_keeps t (fun w => sane w /\ tidy w)).
  - intros w' tm [S' T'] Nx. split; [exact (fire_sane t tm w' S' Nx)|].
    exact (tidy_fire t tm w' S' Nx T').
  - intros w' [S' T'] Nx. split.
    + apply elapse_sane; [exact S'|apply next_timer_none; exact Nx].
    + destruct T' as [A N O Sy D]. split; assumption.
  - split; assumption.
Qed.

Lemma reachable_tidy (w : World) : reachable w -> tidy w.
Proof.
  induction 1 as [t|w r o R IH F|w i R IH|w m R IH Hm Hv|w t R IH].
  - split.
    + intros tm n j [].
    + constructor.
    + intros tm n k m [].
    + intros m [].
    + intros d [].
  - pose proof (steady_sane w (reachable_steady w R)) as S.
    destruct IH as [A N O Sy D]. split.
    + apply armed_showToast. exact A.
    + apply insts_showToast; assumption.
    + apply owned_showToast; assumption.
    + apply synced_showToast. exact Sy.
    + apply doomed_showToast. exact D.
  - pose proof (steady_sane w (reachable_steady w R)) as S.
    destruct IH as [A N O Sy D]. split.
    + apply armed_hideToast. exact A.
    + rewrite insts_hideToast. exact N.
    + apply owned_hideToast. exact O.
    + apply synced_hideToast. exact Sy.
    + apply doomed_hideToast; assumption.
  - pose proof (steady_sane w (reachable_steady w R)) as S.
    destruct IH as [A N O Sy D].
    assert (Hi : forall m', In m' (items w) -> inst m' = inst m ->
                            id (data m') = id (data m)).
    { intros m' Hm' E. f_equal. f_equal. apply (inst_inj (items w)); assumption. }
    split.
    + apply armed_handleClose. exact A.
    + rewrite insts_handleClose. exact N.
    + apply owned_handleClose; assumption.
    + apply synced_handleClose. exact Sy.
    + apply doomed_handleClose; try assumption. apply (sane_insts w S). exact Hm.
  - pose proof (steady_sane w (reachable_steady w R)) as S.
    apply tidy_advance; assumption.
Qed.

(** ** A record nobody touched has only its auto-close timer *)

Lemma ids_inj (w : World) (a b : Mounted) :
  NoDup (ids w) -> In a (items w) -> In b (items w) ->
  id (data a) = id (data b) -> a = b.
Proof.
  unfold ids, toasts. rewrite map_map. intros N.
  induction (items w) as [|x l IH]; intros Ha Hb E; [destruct Ha|].
  simpl in N. apply NoDup_cons_iff in N. destruct N as [Hx Hl].
  destruct Ha as [Ha|Ha]; destruct Hb as [Hb|Hb].
  - congruence.
  - subst x. exfalso. apply Hx. rewrite E.
    apply (in_map (fun m => id (data m))). exact Hb.
  - subst x. exfalso. apply Hx. rewrite <- E.
    apply (in_map (fun m => id (data m))). exact Ha.
  - exact (IH Hl Ha Hb E).
Qed.

Lemma pristine_showToast (r : string) (o : ToastOptions) (w : World) :
  sane w -> fresh (random_id r) w -> pristine w -> pristine (snd (showToast r o w)).
Proof.
  intros S [Fi Ft] P m tm Hm V L Hin K.
  rewrite showToast_items in Hm. rewrite showToast_pending in Hin.
  apply in_app_or in Hm. apply in_app_or in Hin.
  destruct Hm as [Hm|[Hm|[]]]; destruct Hin as [Hin|[Hin|[]]].
  - exact (P m tm Hm V L Hin K).
  - exfalso. subst tm. unfold concerns in K; simpl in K. destruct K as [K|K].
    + injection K as K. pose proof (sane_insts w S m Hm). lia.
    + apply Fi. rewrite K. unfold ids, toasts. rewrite map_map.
      apply (in_map (fun m => id (data m))). exact Hm.
  - exfalso. subst m. unfold concerns in K; simpl in K. destruct K as [K|K].
    + pose proof (sane_owners w S tm _ Hin K). lia.
    + exact (Ft tm Hin K).
  - subst m tm. reflexivity.
Qed.

Lemma pristine_hideToast (j : string) (w : World) : pristine w -> pristine (hideToast j w).
Proof.
  intros P m' tm Hm' V L Hin K.
  rewrite hideToast_eq in Hm'.
  apply (settle_items _ _ _ _ _ (hide_item_tame j)) in Hm'.
  destruct Hm' as [m [Hm E]]. rewrite hide_item_fst in E.
  destruct (has_id j m) eqn:H; [subst m'; discriminate|]. subst m'.
  apply hideToast_pending_in in Hin. destruct Hin as [Hin|Hin].
  - exact (P m tm Hm V L Hin K).
  - exfalso. subst tm. unfold concerns in K; simpl in K. destruct K as [K|K]; [discriminate|].
    unfold has_id in H. apply String.eqb_neq in H. congruence.
Qed.

Lemma pristine_handleClose (n : nat) (i : string) (w : World) :
  pristine w ->
  (forall m, In m (items w) -> id (data m) = i -> inst m = n) ->
  pristine (handleClose n i w).
Proof.
  intros P Hi m' tm Hm' V L Hin K.
  rewrite handleClose_eq in Hm'.
  apply (settle_items _ _ _ _ _ (leave_item_tame n)) in Hm'.
  destruct Hm' as [m [Hm E]]. rewrite leave_item_fst in E.
  destruct (Nat.eqb_spec (inst m) n) as [En|En]; [subst m'; discriminate|]. subst m'.
  apply handleClose_pending_in in Hin. destruct Hin as [Hin|Hin].
  - exact (P m tm Hm V L Hin K).
  - exfalso. subst tm. unfold concerns in K; simpl in K. destruct K as [K|K].
    + injection K as K. congruence.
    + apply En. apply Hi; [exact Hm|congruence].
Qed.

Lemma pristine_vanish (n : nat) (w : World) :
  pristine w ->
  (forall m, In m (items w) -> visible (data m) = true -> isLeaving m = false ->
             inst m <> n) ->
  pristine (settle (vanish_item n) w).
Proof.
  intros P Hn m' tm Hm' V L Hin K.
  apply (settle_items _ _ _ _ _ (vanish_item_tame n)) in Hm'.
  destruct Hm' as [m [Hm E]]. rewrite vanish_item_fst in E.
  apply (settle_pending_in _ _ _ (vanish_item_tame n)) in Hin. destruct Hin as [Hin _].
  destruct (Nat.eqb_spec (inst m) n) as [En|En].
  - exfalso. subst m'. simpl in V, L. exact (Hn m Hm V L En).
  - subst m'. exact (P m tm Hm V L Hin K).
Qed.

Lemma pristine_shrink (w w' : World) :
  (forall m, In m (items w') -> In m (items w)) ->
  (forall tm, In tm (pending w') -> In tm (pending w)) ->
  pristine w -> pristine w'.
Proof.
  intros Hi Ht P m tm Hm V L Hin K. exact (P m tm (Hi m Hm) V L (Ht tm Hin) K).
Qed.

Lemma pristine_fire (tm : Timer) (w : World) :
  sane w -> armed w -> NoDup (ids w) -> In tm (pending w) ->
  pristine w -> pristine (fire tm w).
Proof.
  intros S A N Hin P.
  assert (Pd : pristine (dequeue tm w)).
  { apply (pristine_shrink w); [intros m H; exact H| |exact P].
    intros tm' H. apply dequeue_pending_in in H. apply H. }
  unfold fire. destruct (cb tm) as [i|n i|n i] eqn:E; unfold run.
  - apply (pristine_shrink (dequeue tm w)); [| |exact Pd].
    + intros m H. rewrite removeToast_items in H. apply filter_In in H. apply H.
    + intros tm' H. apply removeToast_pending_in in H. apply H.
  - apply pristine_handleClose; [exact Pd|].
    intros m Hm Ei. destruct (A tm n i Hin E) as [m0 [Hm0 [En0 [Ei0 _]]]].
    assert (m = m0) by (apply (ids_inj w); [exact N|exact Hm|exact Hm0|congruence]).
    congruence.
  - rewrite closeDone_eq. apply pristine_hideToast. apply pristine_vanish; [exact Pd|].
    intros m Hm V L En.
    assert (K : concerns (inst m) (id (data m)) (cb tm)).
    { left. rewrite E. simpl. congruence. }
    pose proof (P m tm Hm V L Hin K) as Ek.
    destruct (sane_stored w S m (handle tm) Hm Ek) as [_ Hcb].
    specialize (Hcb tm Hin eq_refl). congruence.
Qed.

Lemma steady_fire (t : Z) (tm : Timer) (w : World) :
  next_timer t w = Some tm -> steady w -> steady (fire tm w).
Proof.
  intros Nx [S NS CL N]. split.
  - exact (fire_sane t tm w S Nx).
  - apply no_stale_fire. exact NS.
  - exact (closing_fire t tm w S Nx CL).
  - apply nodup_fire. exact N.
Qed.

Lemma reachable_pristine (w : World) : reachable w -> pristine w.
Proof.
  induction 1 as [t|w r o R IH F|w i R IH|w m R IH Hm Hv|w t R IH].
  - intros m tm [].
  - apply pristine_showToast; [|exact F|exact IH].
    exact (steady_sane w (reachable_steady w R)).
  - apply pristine_hideToast. exact IH.
  - apply pristine_handleClose; [exact IH|].
    intros m' Hm' E. f_equal.
    apply (ids_inj w); [exact (steady_ids w (reachable_steady w R))|assumption..].
  - pose proof (reachable_steady w R) as St. pose proof (reachable_tidy w R) as Ti.
    assert (G : steady (advance t w) /\ tidy (advance t w) /\ pristine (advance t w)).
    { apply (advance_keeps t (fun w => steady w /\ tidy w /\ pristine w)).
      - intros w' tm [St' [Ti' P']] Nx.
        split; [exact (steady_fire t tm w' Nx St')|].
        split; [exact (tidy_fire t tm w' (steady_sane w' St') Nx Ti')|].
        apply pristine_fire; try assumption.
        + exact (steady_sane w' St').
        + exact (tidy_armed w' Ti').
        + exact (steady_ids w' St').
        + apply next_timer_some in Nx. apply Nx.
      - intros w' [St' [Ti' P']] Nx. split; [|split].
        + destruct St' as [S NS CL N]. split; try assumption.
          apply elapse_sane; [exact S|apply next_timer_none; exact Nx].
        + destruct Ti' as [A N O Sy D]. split; assumption.
        + exact P'.
      - split; [exact St|split; [exact Ti|exact IH]]. }
    apply G.
Qed.

(** ** A visible record is on screen *)

(** [isVisible] is cleared only together with the record's [visible]. *)
Definition onscreen (w : World) : Prop :=
  forall m, In m (items w) -> visible (data m) = true -> isVisible m = true.

Lemma onscreen_hideToast (j : string) (w : World) : onscreen w -> onscreen (hideToast j w).
Proof.
  intros On m' Hm' V. rewrite hideToast_eq in Hm'.
  apply (settle_items _ _ _ _ _ (hide_item_tame j)) in Hm'.
  destruct Hm' as [m [Hm E]]. rewrite hide_item_fst in E.
  destruct (has_id j m); subst m'; [discriminate|]. exact (On m Hm V).
Qed.

Lemma onscreen_handleClose (n : nat) (i : string) (w : World) :
  onscreen w -> onscreen (handleClose n i w).
Proof.
  intros On m' Hm' V. rewrite handleClose_eq in Hm'.
  apply (settle_items _ _ _ _ _ (leave_item_tame n)) in Hm'.
  destruct Hm' as [m [Hm E]]. rewrite leave_item_fst in E.
  destruct (Nat.eqb (inst m) n); subst m'; simpl in *; exact (On m Hm V).
Qed.

Lemma onscreen_closeDone (n : nat) (i : string) (w : World) :
  (forall m, In m (items w) -> inst m = n -> id (data m) = i) ->
  onscreen w -> onscreen (closeDone n i w).
Proof.
  intros Hi On m' Hm' V. rewrite closeDone_eq, hideToast_eq in Hm'.
  apply (settle_items _ _ _ _ _ (hide_item_tame i)) in Hm'.
  destruct Hm' as [m1 [Hm1 E]]. rewrite hide_item_fst in E.
  destruct (has_id i m1) eqn:H; subst m'; [discriminate|].
  change (items (schedule (Cleanup i) 500 (settle (vanish_item n) w)))
    with (items (settle (vanish_item n) w)) in Hm1.
  apply (settle_items _ _ _ _ _ (vanish_item_tame n)) in Hm1.
  destruct Hm1 as [m [Hm E]]. rewrite vanish_item_fst in E.
  destruct (Nat.eqb_spec (inst m) n) as [En|En]; subst m1.
  - exfalso. unfold has_id in H. simpl in H. apply String.eqb_neq in H.
    apply H. exact (Hi m Hm En).
  - exact (On m Hm V).
Qed.

Lemma onscreen_fire (tm : Timer) (w : World) :
  owned w -> In tm (pending w) -> onscreen w -> onscreen (fire tm w).
Proof.
  intros O Hin On. unfold fire. destruct (cb tm) as [i|n i|n i] eqn:E; unfold run.
  - intros m Hm V. rewrite removeToast_items in Hm. apply filter_In in Hm.
    destruct Hm as [Hm _]. exact (On m Hm V).
  - apply onscreen_handleClose. exact On.
  - apply onscreen_closeDone; [|exact On].
    intros m Hm En. exact (O tm n i m Hin E Hm En).
Qed.

Lemma reachable_onscreen (w : World) : reachable w -> onscreen w.
Proof.
  induction 1 as [t|w r o R IH F|w i R IH|w m R IH Hm Hv|w t R IH].
  - intros m [].
  - intros m Hm V. rewrite showToast_items in Hm.
    apply in_app_or in Hm. destruct Hm as [Hm|[Hm|[]]]; [exact (IH m Hm V)|].
    subst m. reflexivity.
  - apply onscreen_hideToast. exact IH.
  - apply onscreen_handleClose. exact IH.
  - pose proof (reachable_steady w R) as St. pose proof (reachable_tidy w R) as Ti.
    assert (G : sane (advance t w) /\ tidy (advance t w) /\ onscreen (advance t w)).
    { apply (advance_keeps t (fun w => sane w /\ tidy w /\ onscreen w)).
      - intros w' tm [S' [Ti' On']] Nx.
        split; [exact (fire_sane t tm w' S' Nx)|].
        split; [exact (tidy_fire t tm w' S' Nx Ti')|].
        apply onscreen_fire; [exact (tidy_owned w' Ti')| |exact On'].
        apply next_timer_some in Nx. apply Nx.
      - intros w' [S' [Ti' On']] Nx. split; [|split].
        + apply elapse_sane; [exact S'|apply next_timer_none; exact Nx].
        + destruct Ti' as [A N O Sy D]. split; assumption.
        + exact On'.
      - split; [exact (steady_sane w St)|split; [exact Ti|exact IH]]. }
    apply G.
Qed.

(** ** The horizon *)

Lemma slack_nonneg (c : Callback) : 0 <= slack c.
Proof. destruct c; simpl; lia. Qed.

Lemma horizon_bounds (w : World) :
  clock w <= horizon w /\
  forall tm, In tm (pending w) -> due tm + slack (cb tm) <= horizon w.
Proof.
  unfold horizon. induction (pending w) as [|x l [IH1 IH2]]; simpl.
  - split; [lia|intros tm []].
  - split; [lia|]. intros tm [E|H]; [subst; lia|specialize (IH2 tm H); lia].
Qed.

Lemma within_fire (t B : Z) (tm : Timer) (w : World) :
  sane w -> next_timer t w = Some tm ->
  (forall tm', In tm' (pending w) -> due tm' + slack (cb tm') <= B) ->
  forall tm', In tm' (pending (fire tm w)) -> due tm' + slack (cb tm') <= B.
Proof.
  intros S Nx Hb tm' H'.
  pose proof Nx as Nx'. apply next_timer_some in Nx'. destruct Nx' as [Hin _].
  pose proof (sane_timely w S tm Hin) as Ht. pose proof (Hb tm Hin) as Hbt.
  apply fire_pending_in in H'. destruct H' as [[H' _]|H'].
  - exact (Hb tm' H').
  - unfold spawn in H'. destruct (cb tm) as [j|n j|n j]; [discriminate| |];
      injection H' as H'; subst tm'; simpl in *; lia.
Qed.

(** ** Further theorems *)

Lemma state_of_member (l : list ToastData) (d : ToastData) :
  NoDup (map id l) -> In d l -> state_of (id d) l = Some (visible d).
Proof.
  unfold state_of. induction l as [|x l IH]; simpl; intros N Hd; [destruct Hd|].
  apply NoDup_cons_iff in N. destruct N as [Hx Hl].
  destruct Hd as [Hd|Hd].
  - subst x. rewrite String.eqb_refl. reflexivity.
  - destruct (String.eqb_spec (id x) (id d)) as [E|E].
    + exfalso. apply Hx. rewrite E. apply in_map. exact Hd.
    + exact (IH Hl Hd).
Qed.

(** X1.  In every reachable world, dismissing cancels the auto-close timer:
    after [hideToast] of an identifier no auto-close timer made for that
    identifier is pending, and after [handleClose] of an instance (a click
    on its close button) none of that instance is. *)
Theorem dismissal_cancels_auto_close (w : World) :
  reachable w ->
  (forall i tm n, In tm (pending (hideToast i w)) -> cb tm <> AutoClose n i) /\
  (forall n i tm j, In tm (pending (handleClose n i w)) -> cb tm <> AutoClose n j).
Proof.
  intros R. pose proof (tidy_armed w (reachable_tidy w R)) as A. split.
  - intros i tm n Hin E. rewrite hideToast_eq in Hin.
    apply (settle_pending_in _ _ _ (hide_item_tame i)) in Hin. destruct Hin as [Hin Hkeep].
    apply schedule_pending_in in Hin. destruct Hin as [Hin|Hin]; [|subst tm; discriminate].
    destruct (A tm n i Hin E) as [m [Hm [En [Ei [Ek [V [S L]]]]]]].
    apply Hkeep. exists m. split; [exact Hm|]. split; [|exact Ek].
    unfold hide_hits, has_id. rewrite Ei, String.eqb_refl, V, S. reflexivity.
  - intros n i tm j Hin E. rewrite handleClose_eq in Hin.
    apply (settle_pending_in _ _ _ (leave_item_tame n)) in Hin. destruct Hin as [Hin Hkeep].
    apply schedule_pending_in in Hin. destruct Hin as [Hin|Hin]; [|subst tm; discriminate].
    destruct (A tm n j Hin E) as [m [Hm [En [Ei [Ek [V [S L]]]]]]].
    apply Hkeep. exists m. split; [exact Hm|]. split; [|exact Ek].
    unfold leave_hits. rewrite En, Nat.eqb_refl, L. reflexivity.
Qed.

(** X2.  In every reachable world, what a [Toast] of the provider shows is
    decided by its record and its leaving flag: nothing once the record is
    marked closing (so nothing is on screen during the 500 ms before the
    removal), the fading-out alert while it is leaving and the record is
    still visible, the alert otherwise. *)
Theorem rendering_follows_record (w : World) (m : Mounted) :
  reachable w -> In m (items w) ->
  render_toast m =
  if visible (data m) then (if isLeaving m then FadeOut else FadeIn) else Nothing.
Proof.
  intros R Hm. unfold render_toast. destruct (visible (data m)) eqn:V.
  - rewrite (reachable_onscreen w R m Hm V). reflexivity.
  - rewrite (tidy_synced w (reachable_tidy w R) m Hm V). reflexivity.
Qed.

(** X3.  In every reachable world, a first click on the close button of a
    visible toast ([handleClose]) leaves its record visible for 300 ms,
    closing from then until 800 ms after the click, and absent from then
    on, when no other call is made. *)
Theorem close_click_timeline (w : World) (m : Mounted) :
  reachable w -> In m (items w) ->
  visible (data m) = true -> isLeaving m = false ->
  forall t, clock w <= t ->
    let w1 := handleClose (inst m) (id (data m)) w in
    (t < clock w + 300 -> state_of (id (data m)) (toasts (advance t w1)) = Some true) /\
    (clock w + 300 <= t < clock w + 800 ->
     state_of (id (data m)) (toasts (advance t w1)) = Some false) /\
    (clock w + 800 <= t -> state_of (id (data m)) (toasts (advance t w1)) = None).
Proof.
  intros R Hm V L t Ht w1.
  destruct (reachable_steady w R) as [S _ _ N].
  pose proof (reachable_pristine w R) as P.
  pose proof (sane_insts w S m Hm) as Hn.
  apply (phase_run (inst m) (id (data m)) (clock w) t w1).
  - apply handleClose_sane; assumption.
  - unfold w1. rewrite clock_handleClose. exact Ht.
  - apply phase_leaving.
    + unfold w1. rewrite toasts_handleClose. rewrite <- V.
      apply state_of_member; [exact N|]. unfold toasts. apply in_map. exact Hm.
    + unfold w1. rewrite clock_handleClose. lia.
    + eexists. split; [apply handleClose_new; exact S|].
      split; [reflexivity|]. split; [reflexivity|].
      intros tm Hin K. pose proof Hin as Hin'.
      apply handleClose_pending_in in Hin'. destruct Hin' as [Hold|Hnew]; [|exact Hnew].
      exfalso. unfold w1 in Hin. rewrite handleClose_eq in Hin.
      apply (settle_pending_in _ _ _ (leave_item_tame (inst m))) in Hin.
      destruct Hin as [_ Hkeep]. apply Hkeep. exists m.
      split; [exact Hm|]. split; [|exact (P m tm Hm V L Hold K)].
      unfold leave_hits. rewrite Nat.eqb_refl, L. reflexivity.
Qed.

(** X4.  Left alone, the provider empties itself: from every reachable
    world, once the horizon of the pending timers has passed (the latest
    due time, plus 800 ms for an auto-close timer and 500 ms for the end of
    an exit animation), no record is held and no timer is pending. *)
Theorem provider_empties (w : World) (t : Z) :
  reachable w -> horizon w <= t ->
  toasts (advance t w) = [] /\ pending (advance t w) = [].
Proof.
  intros R Ht. pose proof (steady_sane w (reachable_steady w R)) as S.
  pose proof (reachable_tidy w R) as Ti.
  destruct (horizon_bounds w) as [_ Hb].
  destruct (advance_run t
              (fun w' => sane w' /\ tidy w' /\
                         forall tm, In tm (pending w') ->
                                    due tm + slack (cb tm) <= horizon w))
    with (w := w) as [w' [[S' [Ti' Hb']] [Nx E]]].
  - intros w' tm [S' [Ti' Hb']] Nx. split; [exact (fire_sane t tm w' S' Nx)|].
    split; [exact (tidy_fire t tm w' S' Nx Ti')|].
    exact (within_fire t (horizon w) tm w' S' Nx Hb').
  - split; [exact S|split; [exact Ti|exact Hb]].
  - assert (Ep : pending w' = []).
    { pose proof (next_timer_none t w' Nx) as Late.
      destruct (pending w') as [|tm l]; [reflexivity|]. exfalso.
      assert (Hin : In tm (tm :: l)) by (left; reflexivity).
      pose proof (Late tm Hin).
      pose proof (Hb' tm Hin). pose proof (slack_nonneg (cb tm)). lia. }
    rewrite E, toasts_elapse. split; [|exact Ep].
    pose proof (tidy_doomed w' Ti') as D. unfold doomed in D. rewrite Ep in D.
    destruct (toasts w') as [|d l]; [reflexivity|]. exfalso.
    destruct (D d) as [tm [[] _]]. left. reflexivity.
Qed.

Lemma reshape_reshape (k1 h1 k2 h2 : string -> bool) (l : list ToastData) :
  reshape k2 h2 (reshape k1 h1 l) =
  reshape (fun j => k1 j && k2 j) (fun j => h1 j || h2 j) l.
Proof.
  unfold reshape. induction l as [|x l IH]; simpl; [reflexivity|].
  destruct (k1 (id x)); simpl; [|exact IH].
  assert (E : id (if h1 (id x) then hidden x else x) = id x)
    by (destruct (h1 (id x)); reflexivity).
  rewrite E. destruct (k2 (id x)); simpl; [|exact IH].
  rewrite E, IH. f_equal. destruct (h1 (id x)); simpl; [|reflexivity].
  destruct (h2 (id x)); reflexivity.
Qed.

Lemma state_of_reshape (i : string) (keep hide : string -> bool) (l : list ToastData) :
  state_of i (reshape keep hide l) =
  if keep i then option_map (fun v => if hide i then false else v) (state_of i l) else None.
Proof.
  unfold state_of, reshape. induction l as [|x l IH]; simpl.
  - destruct (keep i); reflexivity.
  - destruct (String.eqb_spec (id x) i) as [E|E].
    + subst i. destruct (keep (id x)); simpl.
      * destruct (hide (id x)); simpl; rewrite String.eqb_refl; reflexivity.
      * rewrite IH. reflexivity.
    + destruct (keep (id x)); simpl; [|exact IH].
      assert (E' : id (if hide (id x) then hidden x else x) = id x)
        by (destruct (hide (id x)); reflexivity).
      rewrite E'. destruct (String.eqb_spec (id x) i); [contradiction|]. exact IH.
Qed.

Lemma step_reshape (e : Event) (w : World) :
  is_show e = false -> exists keep hide, toasts (step e w) = reshape keep hide (toasts w).
Proof.
  destruct e as [r o|i|n i|t]; simpl; intros H.
  - discriminate.
  - exists (fun _ => true), (fun k => false || String.eqb k i).
    rewrite toasts_hideToast, <- reshape_hide, reshape_id. reflexivity.
  - exists (fun _ => true), (fun _ => false).
    rewrite toasts_handleClose, reshape_id. reflexivity.
  - apply advance_reshape.
Qed.

(** X5.  Nothing but [showToast] adds a record or makes one visible: after
    any sequence of [hideToast] calls, clicks on close buttons and waits,
    the collection is the former one with some identifiers removed and some
    marked closing, every record otherwise as it was and in its place; a
    record that was not visible is not visible afterwards. *)
Theorem only_showToast_adds (es : list Event) (w : World) :
  forallb (fun e => negb (is_show e)) es = true ->
  (exists keep hide, toasts (exec es w) = reshape keep hide (toasts w)) /\
  (forall i, state_of i (toasts w) <> Some true ->
             state_of i (toasts (exec es w)) <> Some true).
Proof.
  intros H.
  assert (G : exists keep hide, toasts (exec es w) = reshape keep hide (toasts w)).
  { revert w. induction es as [|e es IH]; intros w.
    - exists (fun _ => true), (fun _ => false). symmetry. apply reshape_id.
    - change (exec (e :: es) w) with (exec es (step e w)). simpl in H. apply andb_true_iff in H. destruct H as [He Hes].
      apply negb_true_iff in He.
      destruct (step_reshape e w He) as [k1 [h1 E1]].
      destruct (IH Hes (step e w)) as [k2 [h2 E2]].
      eexists. eexists. rewrite E2, E1. apply reshape_reshape. }
  split; [exact G|]. destruct G as [keep [hide E]].
  intros i Hi. rewrite E, state_of_reshape.
  destruct (keep i); [|discriminate].
  destruct (state_of i (toasts w)) as [[|]|]; simpl.
  - exfalso. apply Hi. reflexivity.
  - destruct (hide i); discriminate.
  - discriminate.
Qed.

(** X6.  For every request, the call of [showToast] returns the token
    drawn and leaves the provider as it was; the render that follows
    appends exactly one record after the existing ones, visible, with the
    variant or [info], and a duration that is the requested one unless that
    is 0 or omitted, in which case it is 5000; and it sets exactly one
    timer, the record's auto-close timer, due after the time the host
    waits for that duration: the duration itself when it is at most
    2147483647, nothing when it is negative or from 2147483648 to
    4294967295 (the host reads the delay as a signed 32-bit integer).  The
    duration stored is never 0. *)
Theorem showToast_arms (r : string) (o : ToastOptions) (w : World) :
  let d := match duration o with
           | Some x => if Z.eqb x 0 then 5000 else x
           | None => 5000
           end in
  fst (showToast r o w) = random_id r /\
  returned (snd (showToast_call r o w)) = w /\
  snd (showToast r o w) = render (snd (showToast_call r o w)) /\
  toasts (snd (showToast r o w)) =
  toasts w ++
  [{| options :=
        {| variant := Some (match variant o with Some v => v | None => info end);
           title := title o;
           description := description o;
           duration := Some d;
           action := action o |};
      id := random_id r;
      visible := true |}] /\
  pending (snd (showToast r o w)) =
  pending w ++
  [{| due := clock w + timer_delay d;
      handle := next_handle (host w);
      cb := AutoClose (next_inst w) (random_id r) |}] /\
  d <> 0 /\
  (0 < d <= 2147483647 -> timer_delay d = d) /\
  (-2147483648 <= d < 0 \/ 2147483647 < d < 4294967296 -> timer_delay d = 0).
Proof.
  intros d.
  assert (Ed : or_default number_falsy (duration o) 5000 = d).
  { unfold d, or_default, number_falsy. destruct (duration o); reflexivity. }
  split; [rewrite showToast_eq; reflexivity|].
  split; [reflexivity|]. split; [reflexivity|].
  split; [|split; [|split; [|split]]].
  - rewrite toasts_showToast. unfold append_toast, new_toast. rewrite Ed.
    destruct (variant o); reflexivity.
  - rewrite showToast_pending, Ed. reflexivity.
  - unfold d. destruct (duration o) as [x|]; [|discriminate].
    destruct (Z.eqb_spec x 0); [discriminate|assumption].
  - intros H. apply timer_delay_small. lia.
  - intros [H|H]; [apply timer_delay_negative|apply timer_delay_wrapped]; exact H.
Qed.

Lemma substring_length (n m : nat) (s : string) :
  String.length (substring n m s) = Nat.min m (String.length s - n).
Proof.
  revert n m. induction s as [|c s IH]; intros n m.
  - destruct n, m; reflexivity.
  - destruct n as [|n].
    + destruct m as [|m]; [reflexivity|]. simpl. rewrite IH, Nat.sub_0_r. reflexivity.
    + simpl. apply IH.
Qed.

(** X7.  The identifier drawn by [showToast] has at most seven characters:
    as many as the text of the random number has after its first two, up to
    seven; it is empty when that text has no third character. *)
Theorem random_id_length (r : string) :
  String.length (random_id r) = Nat.min 7 (String.length r - 2).
Proof. apply substring_length. Qed.

(** X8.  Whatever duration is requested, the record shown with a new token
    in a reachable world is dismissed by its own timers when no call is
    made: with [e] the time the host waits for the stored duration (the
    duration read as a signed 32-bit integer, or 0 if that is negative), it
    is visible before [e + 300] ms, closing from then until [e + 800] ms,
    and absent from then on. *)
Theorem auto_dismiss_any_duration (w : World) (r : string) (o : ToastOptions) :
  reachable w -> fresh (random_id r) w ->
  forall t, clock w <= t ->
    let e := timer_delay (or_default number_falsy (duration o) 5000) in
    let i := random_id r in
    let w1 := snd (showToast r o w) in
    (t < clock w + e + 300 -> state_of i (toasts (advance t w1)) = Some true) /\
    (clock w + e + 300 <= t < clock w + e + 800 ->
     state_of i (toasts (advance t w1)) = Some false) /\
    (clock w + e + 800 <= t -> state_of i (toasts (advance t w1)) = None).
Proof.
  intros R [Fi Ft] t Ht e i w1. destruct (reachable_steady w R) as [S _ _ _].
  assert (Hin : In {| due := clock w + e; handle := next_handle (host w);
                      cb := AutoClose (next_inst w) i |} (pending w1)).
  { unfold w1. rewrite showToast_pending. apply in_or_app. right. left. reflexivity. }
  apply (phase_run (next_inst w) i (clock w + e) t w1).
  - apply showToast_sane. exact S.
  - unfold w1. rewrite clock_showToast. exact Ht.
  - apply phase_shown.
    + unfold w1. rewrite toasts_showToast. apply state_of_append_absent; [exact Fi|reflexivity].
    + eexists. split; [exact Hin|]. split; [reflexivity|]. split; [reflexivity|].
      intros tm H K. unfold w1 in H. rewrite showToast_pending in H.
      apply in_app_or in H. destruct H as [H|[H|[]]].
      * exfalso. destruct K as [K|K].
        -- pose proof (sane_owners w S tm _ H K). lia.
        -- exact (Ft tm H K).
      * subst tm. reflexivity.
Qed.

End Toasts.

(** * Worked examples

    The payload type is instantiated with [unit]; the random text "0.i" is
    [Math.random().toString(36)] when [Math.random()] returns 0.5. *)

Definition demo_options (d : option number) : @ToastOptions unit :=
  {| variant := Some success;
     title := None;
     description := "Form submitted successfully!";
     duration := d;
     action := None |}.

(** One toast with a duration of 2000 ms, shown at time 0. *)
Definition demo_world : @World unit :=
  snd (showToast "0.i" (demo_options (Some 2000)) (init 0)).

(** The same toast, dismissed at time 0. *)
Definition closing_world : @World unit := hideToast "i" demo_world.

Definition demo_events : list (@Event unit) :=
  [Show "0.i" (demo_options None); Show "0.j" (demo_options (Some 100));
   Hide "i"; Wait 600; Show "0.i" (demo_options None)].

Lemma demo_reachable : reachable demo_world.
Proof.
  unfold demo_world. apply reach_show; [apply reach_init|].
  split; [intros []|intros tm []].
Qed.

Lemma closing_reachable : reachable closing_world.
Proof. unfold closing_world. apply reach_hide. exact demo_reachable. Qed.

(** C1 at an identifier that was never returned. *)
Lemma hideToast_absent_noop_witness :
  ~ In "zz" (ids demo_world) /\
  toasts (hideToast "zz" demo_world) = toasts demo_world /\
  toasts (run (Cleanup "zz") (hideToast "zz" demo_world)) = toasts demo_world.
Proof.
  assert (H : ~ In "zz" (ids demo_world)).
  { simpl. intros [E|[]]. discriminate E. }
  split; [exact H|]. apply hideToast_absent_noop. exact H.
Defined.

(** C2: a caller-supplied duration of 0 is not kept: the record appended by
    [showToast] has duration 5000. *)
Theorem showToast_zero_duration_replaced :
  toasts (snd (showToast "0.i" (demo_options (Some 0)) (init 0))) =
  [{| options :=
        {| variant := Some success;
           title := None;
           description := "Form submitted successfully!";
           duration := Some 5000;
           action := None |};
      id := "i";
      visible := true |}].
Proof. reflexivity. Qed.




(** C4 as stated fails: when [Math.random()] returns 0.5 twice in a row, two
    calls of [showToast] return the same identifier and both records are
    held. *)
Lemma repeated_token_collides :
  let w1 := snd (showToast "0.i" (demo_options None) (init 0)) in
  fst (showToast "0.i" (demo_options None) (init 0)) =
  fst (showToast "0.i" (demo_options None) w1) /\
  ids (snd (showToast "0.i" (demo_options None) w1)) = ["i"; "i"] /\
  ~ NoDup (ids (snd (showToast "0.i" (demo_options None) w1))).
Proof.
  split; [reflexivity|]. split; [reflexivity|].
  intros N. inversion N as [|x l Hn Hl]. apply Hn. left. reflexivity.
Qed.

(** C4 (amended) along a run that reuses a token only after its record is
    gone. *)
Lemma unheld_ids_unique_witness :
  NoDup (ids (@init unit 0)) /\
  unheld demo_events (init 0) /\
  NoDup (ids (exec demo_events (init 0))).
Proof.
  assert (N : NoDup (ids (@init unit 0))) by constructor.
  assert (U : unheld demo_events (init 0)).
  { vm_compute. repeat split; intros H; repeat destruct H as [H|H];
      try discriminate H; exact H. }
  split; [exact N|]. split; [exact U|].
  exact (unheld_ids_unique demo_events (init 0) N U).
Defined.

(** C5: shown with a caller-supplied duration of 0, the toast still gets an
    auto-close timer, due after 5000 ms, and is dismissed by it. *)
Theorem zero_duration_auto_closes :
  let w1 := snd (showToast "0.i" (demo_options (Some 0)) (init 0)) in
  pending w1 = [{| due := 5000; handle := 0; cb := AutoClose 0 "i" |}] /\
  state_of "i" (toasts (advance 5299 w1)) = Some true /\
  state_of "i" (toasts (advance 5300 w1)) = Some false /\
  state_of "i" (toasts (advance 5800 w1)) = None.
Proof. repeat split. Qed.





(** C8 at two toasts with tokens "a" and "b", both shown at time 0. *)
Lemma collection_order_witness :
  let wAB : @World unit :=
    snd (showToast "0.b" (demo_options None)
           (snd (showToast "0.a" (demo_options None) (init 0)))) in
  let w' := advance 500 (hideToast "a" wAB) in
  "a" <> "b" /\
  state_of "b" (toasts w') = Some true /\
  ids wAB = ["a"; "b"] /\
  toasts w' = [new_toast "b" (demo_options None)].
Proof.
  intros wAB w'.
  assert (Hne : "a" <> "b") by discriminate.
  assert (Vb : state_of "b" (toasts w') = Some true) by reflexivity.
  split; [exact Hne|]. split; [exact Vb|].
  destruct (proj2 (proj2 (proj2 (proj2 (@collection_order unit))))
              0 "0.a" (demo_options None) "0.b" (demo_options None) Hne) as [I T].
  split; [exact I|]. exact (T Vb).
Defined.

(** ** Examples for the further theorems *)

(** The instance mounted for the demo toast. *)
Definition demo_item : @Mounted unit := shown "i" (demo_options (Some 2000)) (init 0).

Lemma demo_item_mounted : In demo_item (items demo_world).
Proof. left. reflexivity. Qed.

(** X1 at the demo toast. *)
Lemma dismissal_cancels_auto_close_witness :
  reachable demo_world /\
  (forall i tm n, In tm (pending (hideToast i demo_world)) -> cb tm <> AutoClose n i) /\
  (forall n i tm j, In tm (pending (handleClose n i demo_world)) -> cb tm <> AutoClose n j).
Proof.
  split; [exact demo_reachable|].
  exact (dismissal_cancels_auto_close demo_world demo_reachable).
Defined.

(** X2 at the demo toast: visible to start with, nothing once dismissed. *)
Lemma rendering_follows_record_witness :
  reachable demo_world /\ In demo_item (items demo_world) /\
  render_toast demo_item = FadeIn /\
  Forall (fun m => render_toast m = Nothing) (items closing_world).
Proof.
  split; [exact demo_reachable|]. split; [exact demo_item_mounted|]. split.
  - exact (rendering_follows_record demo_world demo_item demo_reachable demo_item_mounted).
  - apply Forall_forall. intros m Hm.
    rewrite (rendering_follows_record closing_world m closing_reachable Hm).
    simpl in Hm. destruct Hm as [E|[]]. subst m. reflexivity.
Defined.

(** X3: the close button of the demo toast is clicked at time 0. *)
Lemma close_click_timeline_witness :
  reachable demo_world /\ In demo_item (items demo_world) /\
  visible (data demo_item) = true /\ isLeaving demo_item = false /\
  forall t, 0 <= t ->
    (t < 300 ->
     state_of "i" (toasts (advance t (handleClose 0 "i" demo_world))) = Some true) /\
    (300 <= t < 800 ->
     state_of "i" (toasts (advance t (handleClose 0 "i" demo_world))) = Some false) /\
    (800 <= t ->
     state_of "i" (toasts (advance t (handleClose 0 "i" demo_world))) = None).
Proof.
  split; [exact demo_reachable|]. split; [exact demo_item_mounted|].
  split; [reflexivity|]. split; [reflexivity|].
  exact (close_click_timeline demo_world demo_item demo_reachable demo_item_mounted
           eq_refl eq_refl).
Defined.

(** X4: the demo toast and its timers are gone by 2800 ms. *)
Lemma provider_empties_witness :
  reachable demo_world /\ horizon demo_world <= 2800 /\
  toasts (advance 2800 demo_world) = [] /\ pending (advance 2800 demo_world) = [].
Proof.
  assert (H : horizon demo_world <= 2800) by (vm_compute; discriminate).
  split; [exact demo_reachable|]. split; [exact H|].
  exact (provider_empties demo_world 2800 demo_reachable H).
Defined.

(** X5 along a dismissal, a wait and a click. *)
Lemma only_showToast_adds_witness :
  forallb (fun e : @Event unit => negb (is_show e)) [Hide "i"; Wait 100; Close 0 "i"] = true /\
  (exists keep hide,
     toasts (exec [Hide "i"; Wait 100; Close 0 "i"] demo_world) =
     reshape keep hide (toasts demo_world)) /\
  (forall i, state_of i (toasts demo_world) <> Some true ->
             state_of i (toasts (exec [Hide "i"; Wait 100; Close 0 "i"] demo_world))
             <> Some true).
Proof.
  split; [reflexivity|].
  exact (only_showToast_adds [Hide "i"; Wait 100; Close 0 "i"] demo_world eq_refl).
Defined.

(** X8 at a request whose duration is 2147483648, one more than the host
    can wait for: the auto-close timer is due at once, so the toast is
    closing after 300 ms. *)
Lemma auto_dismiss_any_duration_witness :
  reachable (@init unit 0) /\ fresh "i" (@init unit 0) /\
  forall t, 0 <= t ->
    let w1 := snd (showToast "0.i" (demo_options (Some 2147483648)) (init 0)) in
    (t < 300 -> state_of "i" (toasts (advance t w1)) = Some true) /\
    (300 <= t < 800 -> state_of "i" (toasts (advance t w1)) = Some false) /\
    (800 <= t -> state_of "i" (toasts (advance t w1)) = None).
Proof.
  assert (R : reachable (@init unit 0)) by apply reach_init.
  assert (F : fresh "i" (@init unit 0)) by (split; [intros []|intros tm []]).
  split; [exact R|]. split; [exact F|].
  exact (auto_dismiss_any_duration (init 0) "0.i" (demo_options (Some 2147483648)) R F).
Defined.

(** * [Typography] (src/components/typography/Typography.tsx), which
      [Toast] renders its title and description with *)

Module Typography.

(** The keys of [variants.variant]. *)
Inductive Variant : Type :=
| h1 | h2 | h3 | h4 | h5 | h6
| subtitle1 | subtitle2 | body1 | body2 | caption | overline | helper.

(** The object literal indexed by [variant] in the component body. *)
Definition element_of_variant (v : Variant) : string :=
  match v with
  | h1 => "h1" | h2 => "h2" | h3 => "h3" | h4 => "h4" | h5 => "h5" | h6 => "h6"
  | subtitle1 => "h6" | subtitle2 => "h6"
  | body1 => "p" | body2 => "p"
  | caption => "span" | overline => "span" | helper => "span"
  end.

(** A string is falsy exactly when it is empty. *)
Definition falsy (s : string) : bool := String.eqb s "".

(** [const element = Component || {...}[variant] || 'p'], where the
    parameter list reads [as: Component = 'p'] and [variant = 'body1']: an
    omitted prop takes its default before the body runs.  Tags are strings
    (the prop's type is [keyof JSX.IntrinsicElements]). *)
Definition element (as_ : option string) (variant : option Variant) : string :=
  let Component := match as_ with Some c => c | None => "p" end in
  let v := match variant with Some v => v | None => body1 end in
  if falsy Component
  then (if falsy (element_of_variant v) then "p" else element_of_variant v)
  else Component.

(** X9.  The element [Typography] renders does not depend on the variant:
    for every tag name given as [as] it is that tag, and when [as] is
    omitted it is [p], for headings too; the table from variants to
    elements is consulted only for an empty tag, which is no tag name. *)
Theorem element_ignores_variant (as_ : option string) (variant : option Variant) :
  as_ <> Some "" ->
  element as_ variant = match as_ with Some c => c | None => "p" end.
Proof.
  intros H. unfold element, falsy. destruct as_ as [c|]; [|reflexivity].
  destruct (String.eqb_spec c "") as [E|E]; [subst; contradiction|reflexivity].
Qed.

(** X9 at a heading without [as], and at the subtitle of a toast. *)
Lemma element_ignores_variant_witness :
  @None string <> Some "" /\
  element None (Some h1) = "p" /\ element None (Some subtitle2) = "p".
Proof.
  assert (H : @None string <> Some "") by discriminate.
  split; [exact H|].
  split; [exact (element_ignores_variant None (Some h1) H)
         |exact (element_ignores_variant None (Some subtitle2) H)].
Defined.

End Typography.

(** * [Dropdown] (src/components/inputs/Dropdown.tsx): keyboard navigation *)

Module Dropdown.

(** [interface DropdownOption] *)
Record DropdownOption : Type := {
  value : string;
  label : string;
  disabled : option bool
}.

(** The props the handlers read: [options], [value], whether [onChange] is
    given, and the button's [disabled]. *)
Record Props : Type := {
  options : list DropdownOption;
  selected : option string;
  has_onChange : bool;
  button_disabled : bool
}.

(** The two [useState] cells, and the arguments [onChange] was called
    with, oldest first. *)
Record State : Type := {
  isOpen : bool;
  focusedIndex : Z;
  changes : list string
}.

(** [useState(false)], [useState(-1)]. *)
Definition initial : State := {| isOpen := false; focusedIndex := -1; changes := [] |}.

Inductive Key : Type := ArrowDown | ArrowUp | Enter | Space | Escape | Tab | OtherKey.

(** [option.disabled] as a condition: [undefined] and [false] are falsy. *)
Definition is_disabled (o : DropdownOption) : bool :=
  match disabled o with
  | Some b => b
  | None => false
  end.

Definition size (p : Props) : Z := Z.of_nat (List.length (options p)).

(** [options[i]]: [undefined] outside the array. *)
Definition at_index (p : Props) (i : Z) : option DropdownOption :=
  if (i <? 0) then None else nth_error (options p) (Z.to_nat i).

(** [options.findIndex(option => option.value === value)] *)
Fixpoint findIndex_from (k : Z) (v : option string) (l : list DropdownOption) : Z :=
  match l with
  | [] => -1
  | o :: l' =>
      match v with
      | Some s => if String.eqb (value o) s then k else findIndex_from (k + 1) v l'
      | None => findIndex_from (k + 1) v l'
      end
  end.

Definition findIndex (p : Props) : Z := findIndex_from 0 (selected p) (options p).

(** The effect that runs when the menu opens (lines 175-180):
    [setFocusedIndex(selectedIndex >= 0 ? selectedIndex : 0)]. *)
Definition focus_on_open (p : Props) (s : State) : State :=
  {| isOpen := isOpen s;
     focusedIndex := if (0 <=? findIndex p) then findIndex p else 0;
     changes := changes s |}.

(** The button's [onClick]: [!disabled && setIsOpen(!isOpen)]; the effect
    above follows when the menu has opened. *)
Definition toggle (p : Props) (s : State) : State :=
  if button_disabled p then s
  else if isOpen s
       then {| isOpen := false; focusedIndex := focusedIndex s; changes := changes s |}
       else focus_on_open p
              {| isOpen := true; focusedIndex := focusedIndex s; changes := changes s |}.

(** [handleSelect(option)] (lines 106-112); reading [option.disabled] of
    [undefined] throws a [TypeError]. *)
Definition handleSelect (p : Props) (o : option DropdownOption) (s : State)
  : Outcome State :=
  match o with
  | None => Throws _ "TypeError"
  | Some opt =>
      Returns _
        {| isOpen := false;
           focusedIndex := focusedIndex s;
           changes := if negb (is_disabled opt) && has_onChange p
                      then changes s ++ [value opt]
                      else changes s |}
  end.

(** [handleKeyDown] (lines 114-148). *)
Definition handleKeyDown (p : Props) (k : Key) (s : State) : Outcome State :=
  if negb (isOpen s) then Returns _ s
  else
    match k with
    | ArrowDown =>
        Returns _
          {| isOpen := isOpen s;
             focusedIndex := if (focusedIndex s <? size p - 1)
                             then focusedIndex s + 1 else 0;
             changes := changes s |}
    | ArrowUp =>
        Returns _
          {| isOpen := isOpen s;
             focusedIndex := if (focusedIndex s >? 0)
                             then focusedIndex s - 1 else size p - 1;
             changes := changes s |}
    | Enter | Space =>
        if (focusedIndex s >=? 0)
        then handleSelect p (at_index p (focusedIndex s)) s
        else Returns _ s
    | Escape | Tab =>
        Returns _ {| isOpen := false; focusedIndex := focusedIndex s; changes := changes s |}
    | OtherKey => Returns _ s
    end.

(** A list item's [onClick]: [!option.disabled && handleSelect(option)]. *)
Definition clickOption (p : Props) (opt : DropdownOption) (s : State) : Outcome State :=
  if is_disabled opt then Returns _ s else handleSelect p (Some opt) s.

(** Keys pressed one after the other; a throw ends the run. *)
Fixpoint press (p : Props) (ks : list Key) (s : State) : Outcome State :=
  match ks with
  | [] => Returns _ s
  | k :: ks' =>
      match handleKeyDown p k s with
      | Returns _ s' => press p ks' s'
      | Throws _ e => Throws _ e
      end
  end.

(** The focus is on an option. *)
Definition focus_in_range (p : Props) (s : State) : Prop :=
  0 <= focusedIndex s < size p.

Lemma findIndex_from_range (k : Z) (v : option string) (l : list DropdownOption) :
  findIndex_from k v l = -1 \/
  k <= findIndex_from k v l < k + Z.of_nat (List.length l).
Proof.
  revert k. induction l as [|o l IH]; intros k; simpl; [left; reflexivity|].
  destruct v as [s|].
  - destruct (String.eqb (value o) s); [right; lia|].
    destruct (IH (k + 1)) as [E|E]; [left; exact E|right; lia].
  - destruct (IH (k + 1)) as [E|E]; [left; exact E|right; lia].
Qed.

Lemma toggle_opens (p : Props) (s : State) :
  button_disabled p = false -> isOpen s = false -> options p <> [] ->
  isOpen (toggle p s) = true /\ focus_in_range p (toggle p s).
Proof.
  intros Hb Ho Hn. unfold toggle, focus_on_open, focus_in_range, size. rewrite Hb, Ho.
  simpl. split; [reflexivity|].
  assert (Hl : 0 < Z.of_nat (List.length (options p))).
  { destruct (options p); [contradiction|simpl; lia]. }
  unfold findIndex. destruct (findIndex_from_range 0 (selected p) (options p)) as [E|E].
  - rewrite E. simpl. lia.
  - destruct (Z.leb_spec 0 (findIndex_from 0 (selected p) (options p))); lia.
Qed.

Lemma at_index_in_range (p : Props) (i : Z) :
  0 <= i < size p -> exists opt, at_index p i = Some opt.
Proof.
  unfold at_index, size. intros H.
  destruct (Z.ltb_spec i 0) as [L|L]; [lia|].
  destruct (nth_error (options p) (Z.to_nat i)) as [opt|] eqn:E; [exists opt; reflexivity|].
  apply nth_error_None in E. lia.
Qed.

Lemma key_keeps_range (p : Props) (k : Key) (s : State) :
  (isOpen s = true -> focus_in_range p s) ->
  exists s', handleKeyDown p k s = Returns _ s' /\
             (isOpen s' = true -> focus_in_range p s').
Proof.
  intros H. unfold handleKeyDown. destruct (isOpen s) eqn:Ho; simpl.
  2: { exists s. split; [reflexivity|]. rewrite Ho. discriminate. }
  specialize (H eq_refl). unfold focus_in_range in *.
  destruct k; simpl.
  - eexists. split; [reflexivity|]. simpl. intros _.
    destruct (Z.ltb_spec (focusedIndex s) (size p - 1)); lia.
  - eexists. split; [reflexivity|]. simpl. intros _.
    destruct (Z.gtb_spec (focusedIndex s) 0); lia.
  - destruct (Z.geb_spec (focusedIndex s) 0); [|lia].
    destruct (at_index_in_range p (focusedIndex s) H) as [opt E]. rewrite E. simpl.
    eexists. split; [reflexivity|]. simpl. discriminate.
  - destruct (Z.geb_spec (focusedIndex s) 0); [|lia].
    destruct (at_index_in_range p (focusedIndex s) H) as [opt E]. rewrite E. simpl.
    eexists. split; [reflexivity|]. simpl. discriminate.
  - eexists. split; [reflexivity|]. simpl. discriminate.
  - eexists. split; [reflexivity|]. simpl. discriminate.
  - exists s. split; [reflexivity|]. intros _. exact H.
Qed.

(** X10.  With at least one option, a menu opened from the button never
    throws, whatever keys are pressed afterwards, and as long as it is open
    the focus is on one of the options. *)
Theorem keys_never_throw (p : Props) (s : State) (ks : list Key) :
  options p <> [] -> button_disabled p = false -> isOpen s = false ->
  exists s', press p ks (toggle p s) = Returns _ s' /\
             (isOpen s' = true -> focus_in_range p s').
Proof.
  intros Hn Hb Ho. destruct (toggle_opens p s Hb Ho Hn) as [_ Hr].
  assert (G : forall s0, (isOpen s0 = true -> focus_in_range p s0) ->
                         exists s', press p ks s0 = Returns _ s' /\
                                    (isOpen s' = true -> focus_in_range p s')).
  { induction ks as [|k ks IH]; intros s0 H0; simpl.
    - exists s0. split; [reflexivity|exact H0].
    - destruct (key_keeps_range p k s0 H0) as [s1 [E1 H1]]. rewrite E1. exact (IH s1 H1). }
  apply G. intros _. exact Hr.
Qed.

(** X11.  While the menu is open with the focus on an option, ArrowDown
    followed by ArrowUp, and ArrowUp followed by ArrowDown, put the focus
    back where it was: the arrows walk the options in a ring. *)
Theorem arrows_round_trip (p : Props) (s : State) :
  isOpen s = true -> focus_in_range p s ->
  press p [ArrowDown; ArrowUp] s = Returns _ s /\
  press p [ArrowUp; ArrowDown] s = Returns _ s.
Proof.
  intros Ho H. unfold focus_in_range in H. destruct s as [o f c]. simpl in *. subst o.
  unfold handleKeyDown. simpl. split.
  - destruct (Z.ltb_spec f (size p - 1)).
    + destruct (Z.gtb_spec (f + 1) 0); [|lia]. repeat f_equal. lia.
    + simpl. repeat f_equal. lia.
  - destruct (Z.gtb_spec f 0).
    + destruct (Z.ltb_spec (f - 1) (size p - 1)); [|lia]. repeat f_equal. lia.
    + destruct (Z.ltb_spec (size p - 1) (size p - 1)); [lia|]. repeat f_equal. lia.
Qed.

(** X12.  Enter (or the space bar) on the focused option closes the menu;
    [onChange] is called with the option's value exactly when the option is
    not disabled and [onChange] is given.  The arrows do not skip disabled
    options, so Enter on one closes the menu without a change, whereas a
    click on a disabled option does nothing at all. *)
Theorem enter_on_focused (p : Props) (s : State) (opt : DropdownOption) :
  isOpen s = true ->
  at_index p (focusedIndex s) = Some opt ->
  handleKeyDown p Enter s =
  Returns _ {| isOpen := false;
               focusedIndex := focusedIndex s;
               changes := if negb (is_disabled opt) && has_onChange p
                          then changes s ++ [value opt] else changes s |} /\
  handleKeyDown p Space s = handleKeyDown p Enter s /\
  (is_disabled opt = true ->
   handleKeyDown p Enter s =
   Returns _ {| isOpen := false; focusedIndex := focusedIndex s; changes := changes s |} /\
   clickOption p opt s = Returns _ s).
Proof.
  intros Ho E. unfold handleKeyDown, clickOption. rewrite Ho. simpl.
  assert (Hf : 0 <= focusedIndex s).
  { unfold at_index in E. destruct (Z.ltb_spec (focusedIndex s) 0); [discriminate|lia]. }
  destruct (Z.geb_spec (focusedIndex s) 0); [|lia]. rewrite E. simpl.
  split; [reflexivity|]. split; [reflexivity|].
  intros D. rewrite D. simpl. split; reflexivity.
Qed.

(** X13.  Without options, the menu still opens with the focus at index 0,
    and Enter (or the space bar) then reads [disabled] of [undefined]: the
    handler throws a [TypeError] instead of closing the menu. *)
Theorem enter_without_options_throws (p : Props) (s : State) :
  options p = [] -> button_disabled p = false -> isOpen s = false ->
  isOpen (toggle p s) = true /\ focusedIndex (toggle p s) = 0 /\
  handleKeyDown p Enter (toggle p s) = Throws _ "TypeError" /\
  handleKeyDown p Space (toggle p s) = Throws _ "TypeError".
Proof.
  intros Hn Hb Ho. unfold toggle, focus_on_open, findIndex. rewrite Hb, Ho, Hn.
  simpl. split; [reflexivity|]. split; [reflexivity|].
  unfold handleKeyDown, at_index. simpl. rewrite Hn. split; reflexivity.
Qed.

Lemma findIndex_from_spec (k : Z) (v : string) (l : list DropdownOption) :
  0 <= k ->
  match find (fun o => String.eqb (value o) v) l with
  | Some o =>
      k <= findIndex_from k (Some v) l /\
      nth_error l (Z.to_nat (findIndex_from k (Some v) l - k)) = Some o
  | None => findIndex_from k (Some v) l = -1
  end.
Proof.
  revert k. induction l as [|o l IH]; intros k Hk; simpl; [reflexivity|].
  destruct (String.eqb (value o) v).
  - split; [lia|]. rewrite Z.sub_diag. reflexivity.
  - specialize (IH (k + 1)). destruct (find (fun o0 => String.eqb (value o0) v) l) as [o'|].
    + destruct IH as [L N]; [lia|]. split; [lia|].
      replace (Z.to_nat (findIndex_from (k + 1) (Some v) l - k))
        with (S (Z.to_nat (findIndex_from (k + 1) (Some v) l - (k + 1)))) by lia.
      exact N.
    + apply IH. lia.
Qed.

(** X14.  Opening the menu puts the focus on the option shown as selected
    (the first one whose value is the [value] prop, the one [options.find]
    gives), and on index 0 when there is none. *)
Theorem open_focuses_selected (p : Props) (s : State) :
  button_disabled p = false -> isOpen s = false ->
  match selected p with
  | Some v =>
      match find (fun o => String.eqb (value o) v) (options p) with
      | Some o => at_index p (focusedIndex (toggle p s)) = Some o
      | None => focusedIndex (toggle p s) = 0
      end
  | None => focusedIndex (toggle p s) = 0
  end.
Proof.
  intros Hb Ho. unfold toggle, focus_on_open, findIndex. rewrite Hb, Ho. simpl.
  destruct (selected p) as [v|].
  - pose proof (findIndex_from_spec 0 v (options p) (Z.le_refl 0)) as F.
    destruct (find (fun o => String.eqb (value o) v) (options p)) as [o|].
    + destruct F as [L N]. rewrite Z.sub_0_r in N.
      destruct (Z.leb_spec 0 (findIndex_from 0 (Some v) (options p))); [|lia].
      unfold at_index.
      destruct (Z.ltb_spec (findIndex_from 0 (Some v) (options p)) 0); [lia|exact N].
    + rewrite F. reflexivity.
  - assert (E : forall k l, findIndex_from k None l = -1).
    { intros k l. revert k. induction l as [|o l IH]; intros k; simpl; [reflexivity|apply IH]. }
    rewrite E. reflexivity.
Qed.

(** ** Examples: a role menu like the demo page's, with "guest" disabled *)

Definition roleOptions : list DropdownOption :=
  [{| value := "admin"; label := "Administrator"; disabled := None |};
   {| value := "user"; label := "Standard User"; disabled := None |};
   {| value := "guest"; label := "Guest"; disabled := Some true |};
   {| value := "editor"; label := "Content Editor"; disabled := None |}].

Definition roleProps : Props :=
  {| options := roleOptions; selected := Some "guest"; has_onChange := true;
     button_disabled := false |}.

Definition emptyProps : Props :=
  {| options := []; selected := None; has_onChange := true; button_disabled := false |}.

(** X10 on the role menu, opened and walked down three times. *)
Lemma keys_never_throw_witness :
  options roleProps <> [] /\ button_disabled roleProps = false /\
  isOpen initial = false /\
  exists s', press roleProps [ArrowDown; ArrowDown; ArrowDown] (toggle roleProps initial)
             = Returns _ s' /\
             (isOpen s' = true -> focus_in_range roleProps s').
Proof.
  assert (H : options roleProps <> []) by discriminate.
  split; [exact H|]. split; [reflexivity|]. split; [reflexivity|].
  exact (keys_never_throw roleProps initial [ArrowDown; ArrowDown; ArrowDown]
           H eq_refl eq_refl).
Defined.

(** X11 on the role menu, opened on its selected option. *)
Lemma arrows_round_trip_witness :
  isOpen (toggle roleProps initial) = true /\
  focus_in_range roleProps (toggle roleProps initial) /\
  press roleProps [ArrowDown; ArrowUp] (toggle roleProps initial)
  = Returns _ (toggle roleProps initial) /\
  press roleProps [ArrowUp; ArrowDown] (toggle roleProps initial)
  = Returns _ (toggle roleProps initial).
Proof.
  assert (R : focus_in_range roleProps (toggle roleProps initial))
    by (unfold focus_in_range; vm_compute; split; [discriminate|reflexivity]).
  split; [reflexivity|]. split; [exact R|].
  exact (arrows_round_trip roleProps (toggle roleProps initial) eq_refl R).
Defined.

(** X12 on the role menu: the focus opens on the disabled option. *)
Lemma enter_on_focused_witness :
  isOpen (toggle roleProps initial) = true /\
  at_index roleProps (focusedIndex (toggle roleProps initial))
  = Some {| value := "guest"; label := "Guest"; disabled := Some true |} /\
  handleKeyDown roleProps Enter (toggle roleProps initial)
  = Returns _ {| isOpen := false; focusedIndex := 2; changes := [] |}.
Proof.
  split; [reflexivity|]. split; [reflexivity|].
  exact (proj1 (enter_on_focused roleProps (toggle roleProps initial) _ eq_refl eq_refl)).
Defined.

(** X13 on a menu without options. *)
Lemma enter_without_options_throws_witness :
  options emptyProps = [] /\ button_disabled emptyProps = false /\
  isOpen initial = false /\
  handleKeyDown emptyProps Enter (toggle emptyProps initial) = Throws _ "TypeError".
Proof.
  split; [reflexivity|]. split; [reflexivity|]. split; [reflexivity|].
  exact (proj1 (proj2 (proj2
           (enter_without_options_throws emptyProps initial eq_refl eq_refl eq_refl)))).
Defined.

(** X14 on the role menu. *)
Lemma open_focuses_selected_witness :
  button_disabled roleProps = false /\ isOpen initial = false /\
  at_index roleProps (focusedIndex (toggle roleProps initial))
  = Some {| value := "guest"; label := "Guest"; disabled := Some true |}.
Proof.
  split; [reflexivity|]. split; [reflexivity|].
  exact (open_focuses_selected roleProps initial eq_refl eq_refl).
Defined.

End Dropdown.
